(** * clpfd: the symbolic modelling layer of [clpfd.py]

    A shallow embedding of the Python module [clpfd.py] (expressions,
    variables, domains, the [Variables] array container, the constraint
    store of [Solver] and the lowering of [SolverPulp]) together with the
    properties of its specification.

    Conventions of the embedding.
    - Python [int] is [Z]; a numpy integer scalar ([np.integer]) is a [Z]
      under its own constructor, because [isinstance] tells the two apart.
    - [Expression] and [Variable] instances live in a heap, a list of
      objects indexed by allocation order; a reference is an index.  Object
      identity ([is]) is equality of references.
    - An effectful function is a state transformer returning the new state
      together with either a value or the exception that was raised; the
      effects made before an exception are kept, as in Python.
    - [assert] statements are enabled (the interpreter runs without [-O]).
    - numpy is a release that has the alias [np.object], which the module
      uses for the element type of its arrays. *)

From Stdlib Require Import ZArith Ascii.
From stdpp Require Import gmap strings list pretty.

Local Open Scope string_scope.
Local Open Scope list_scope.
Local Open Scope nat_scope.

(** ** Exceptions and results *)

(** The built-in exception classes the module can raise, each with its
    message. *)
Inductive exn :=
| AssertionError (msg : string)
| ValueError (msg : string)
| AttributeError (msg : string)
| TypeError (msg : string)
| IndexError (msg : string).

(** [isinstance(e, TypeError)]: in the built-in hierarchy none of the other
    classes above derives from [TypeError]. *)
Definition is_TypeError (e : exn) : bool :=
  match e with TypeError _ => true | _ => false end.

Inductive result (A : Type) :=
| Ok (a : A)
| Raise (e : exn).
Arguments Ok {A} a.
Arguments Raise {A} e.

(** ** Data model *)

(** A reference is the index of an object in the heap. *)
Abbreviation addr := nat (only parsing).

(** The Python values that reach the functions of the module. *)
#[warnings="-register-all"]
Inductive value :=
| VNone
| VBool (b : bool)
| VInt (z : Z)
| VNpInt (z : Z)
| VStr (s : string)
| VRange (start stop step : Z)
| VDomain (low up : option Z)
| VNotImplemented
| VExpr (a : addr)
| VArray (is_Variables : bool) (shape : list nat) (flat : list value)
| VNpBool (b : bool)
| VNpFloat (x : Z)
| VNpStr (s : string).

(** In [VArray is_Variables shape flat], [flat] lists the elements in
    row-major order; [is_Variables] tells a [Variables] instance from a plain
    [ndarray].  The module itself only fills the arrays it has just created,
    so arrays are values; the in-place updates the host library makes (as
    for [v += 0]) are outside the model.

    [VNpBool], [VNpFloat] and [VNpStr] are the numpy scalars [numpy.bool_],
    [numpy.float64] and [numpy.str_], which the conversion of a Python
    object to an array produces (see [as_array]); the floats that arise are
    integers, and [x] is the value. *)

(** What [Expression.__init__] lets through its assertion
    [isinstance(v, (Expression, int, np.integer))]: a Python [int] ([bool] is
    a subclass of [int]), a numpy integer or a reference to an [Expression]
    instance. *)
Inductive operand :=
| OBool (b : bool)
| OInt (z : Z)
| ONpInt (z : Z)
| ORef (a : addr).

(** ** [DomainRange]

    [min] is inclusive, [max] exclusive; a bound is [None] when unset. *)
Module DomainRange.

Record t := __init__ { min : option Z; max : option Z }.

Definition fromrange (r : value) : result t :=
  match r with
  | VRange start stop step =>
      if (step =? 1)%Z then Ok (__init__ (Some start) (Some stop))
      else Raise (AssertionError "Sparse ranges not implemented yet")
  | _ => Raise (AssertionError "DomainRange.fromrange only accepts range objects")
  end.

End DomainRange.

(** [range(start, stop)] has step 1. *)
Definition range2 (start stop : Z) : value := VRange start stop 1.

(** Heap objects.  A [Variable] is an [Expression] whose [op] is [None] and
    whose [values] is the empty tuple, with a [name] and a [domain]. *)
Inductive object :=
| OExpression (op : option string) (values : list operand)
| OVariable (name : string) (domain : DomainRange.t).

(** The process state: the heap and the class attribute
    [Variable._varidx]. *)
Record state := mkState { heap : list object; _varidx : nat }.

(** ** The state-and-exception monad *)

Definition M (A : Type) : Type := state → state * result A.

Definition ret {A} (a : A) : M A := λ st, (st, Ok a).
Definition raise {A} (e : exn) : M A := λ st, (st, Raise e).
Definition bind {A B} (m : M A) (k : A → M B) : M B :=
  λ st, match m st with
        | (st', Ok a) => k a st'
        | (st', Raise e) => (st', Raise e)
        end.
Definition lift {A} (r : result A) : M A := λ st, (st, r).

Notation "'let*' x ':=' m 'in' k" := (bind m (λ x, k))
  (at level 10, x name, m at level 100, k at level 200).

(** Allocation of a new object: it gets the next free reference. *)
Definition alloc (o : object) : M addr :=
  λ st, (mkState (heap st ++ [o]) (_varidx st), Ok (length (heap st))).

(** Sequencing over a list, left to right, stopping at the first
    exception. *)
Fixpoint mapM_ {A B} (f : A → M B) (l : list A) : M (list B) :=
  match l with
  | [] => ret []
  | x :: l' => let* y := f x in let* ys := mapM_ f l' in ret (y :: ys)
  end.

(** ** [Expression] *)

(** [type(v)] as [%s] prints it in the message of [Expression.__init__].
    The classes of the module are qualified by the module's import name
    [clpfd].  (Only the values that are not operands are ever printed.) *)
Definition type_repr (v : value) : string :=
  match v with
  | VNone => "<class 'NoneType'>"
  | VBool _ => "<class 'bool'>"
  | VInt _ => "<class 'int'>"
  | VNpInt _ => "<class 'numpy.int64'>"
  | VStr _ => "<class 'str'>"
  | VRange _ _ _ => "<class 'range'>"
  | VDomain _ _ => "<class 'clpfd.DomainRange'>"
  | VNotImplemented => "<class 'NotImplementedType'>"
  | VExpr _ => "<class 'clpfd.Expression'>"
  | VArray false _ _ => "<class 'numpy.ndarray'>"
  | VArray true _ _ => "<class 'clpfd.Variables'>"
  | VNpBool _ => "<class 'numpy.bool_'>"
  | VNpFloat _ => "<class 'numpy.float64'>"
  | VNpStr _ => "<class 'numpy.str_'>"
  end.

(** [isinstance(v, (Expression, int, np.integer))]. *)
Definition as_operand (v : value) : option operand :=
  match v with
  | VBool b => Some (OBool b)
  | VInt z => Some (OInt z)
  | VNpInt z => Some (ONpInt z)
  | VExpr a => Some (ORef a)
  | _ => None
  end.

Definition operand_value (o : operand) : value :=
  match o with
  | OBool b => VBool b
  | OInt z => VInt z
  | ONpInt z => VNpInt z
  | ORef a => VExpr a
  end.

(** The interpreter's message for [str + None]. *)
Definition concat_None_msg : string :=
  "can only concatenate str (not " +:+ String "034"%char "NoneType"
  +:+ String "034"%char ") to str".

Definition bad_operand_msg : string :=
  "Can only build expressions out of expressions or integers. Got: ".

Module Expression.

(** The loop of assertions of [__init__]: the first value that is neither
    an [Expression] nor an integer raises. *)
Fixpoint check_values (values : list value) : result (list operand) :=
  match values with
  | [] => Ok []
  | v :: vs =>
      match as_operand v with
      | None => Raise (AssertionError (bad_operand_msg +:+ type_repr v))
      | Some o =>
          match check_values vs with
          | Ok os => Ok (o :: os)
          | Raise e => Raise e
          end
      end
  end.

(** The constructor call [Expression(op, *values)].  When an assertion
    fails the half-built object is unreachable, so nothing is allocated. *)
Definition __init__ (op : option string) (values : list value) : M addr :=
  let* os := lift (check_values values) in
  alloc (OExpression op os).

Definition __add__ (self : addr) (value : value) : M addr :=
  __init__ (Some "+") [VExpr self; value].

Definition __radd__ (self : addr) (value : value) : M addr :=
  __init__ (Some "+") [value; VExpr self].

Definition __eq__ (self : addr) (value : value) : M addr :=
  __init__ (Some "=") [VExpr self; value].

(** [[v for v in self.values if isinstance(v, Expression)]]. *)
Definition expression_values (values : list operand) : list addr :=
  omap (λ v, match v with ORef a => Some a | _ => None end) values.

(** [variables]: the recursion follows references through the heap, so it
    is bounded by a fuel; [None] means the fuel ran out or a reference
    dangles. *)
Fixpoint variables_fuel (fuel : nat) (h : list object) (self : addr)
  : option (list addr) :=
  match fuel with
  | 0 => None
  | S fuel' =>
      match h !! self with
      | Some (OVariable _ _) => Some [self]
      | Some (OExpression _ values) =>
          match mapM (variables_fuel fuel' h) (expression_values values) with
          | Some ls => Some (concat ls)
          | None => None
          end
      | None => None
      end
  end.

(** A node only refers to objects that existed when it was built, so the
    references met along a path decrease and [S self] steps are enough
    (see [variables_total]). *)
Definition variables (h : list object) (self : addr) : option (list addr) :=
  variables_fuel (S self) h self.

(** [str] of an operand: [Variable.__str__] returns the name, integers
    print in decimal, and [Expression.__str__] is
    [str(values[0]) + " " + op + " " + str(values[1])], evaluated left to
    right. *)
Fixpoint str_fuel (fuel : nat) (h : list object) (v : operand)
  : option (result string) :=
  match v with
  | OBool b => Some (Ok (if b then "True" else "False"))
  | OInt z | ONpInt z => Some (Ok (pretty z))
  | ORef a =>
      match fuel with
      | 0 => None
      | S fuel' =>
          match h !! a with
          | Some (OVariable name _) => Some (Ok name)
          | Some (OExpression op values) =>
              match values with
              | [] => Some (Raise (IndexError "tuple index out of range"))
              | v0 :: rest =>
                  match str_fuel fuel' h v0 with
                  | Some (Ok s0) =>
                      match op with
                      | None =>
                          Some (Raise (TypeError concat_None_msg))
                      | Some o =>
                          match rest with
                          | [] => Some (Raise (IndexError "tuple index out of range"))
                          | v1 :: _ =>
                              match str_fuel fuel' h v1 with
                              | Some (Ok s1) =>
                                  Some (Ok (s0 +:+ " " +:+ o +:+ " " +:+ s1))
                              | r => r
                              end
                          end
                      end
                  | r => r
                  end
              end
          | None => None
          end
      end
  end.

Definition __str__ (h : list object) (self : addr) : option (result string) :=
  str_fuel (S self) h (ORef self).

End Expression.

(** ** [Variable] *)

(** The [domain] argument of [Variable(domain, name)]: [None], a [range] or
    a [DomainRange]. *)
Inductive domain_arg :=
| DomNone
| DomRange (start stop step : Z)
| DomObject (d : DomainRange.t).

(** ([Variable] is a keyword of the prover, hence the trailing underscore.) *)
Module Variable_.

(** [name = "var_%d" % Variable._varidx; Variable._varidx += 1]. *)
Definition new_name : M string :=
  λ st, (mkState (heap st) (S (_varidx st)), Ok ("var_" +:+ pretty (_varidx st))).

(** [if domain is None: domain = DomainRange()
     elif isinstance(domain, range): domain = DomainRange.fromrange(domain)]. *)
Definition convert_domain (domain : domain_arg) : result DomainRange.t :=
  match domain with
  | DomNone => Ok (DomainRange.__init__ None None)
  | DomRange start stop step => DomainRange.fromrange (VRange start stop step)
  | DomObject d => Ok d
  end.

(** The constructor call [Variable(domain, name)]. *)
Definition __init__ (domain : domain_arg) (name : option string) : M addr :=
  let* name := match name with
               | None => new_name
               | Some n => ret n
               end in
  let* domain := lift (convert_domain domain) in
  alloc (OVariable name domain).

End Variable_.

(** ** Infix operators

    How Python dispatches the infix operators on the operands the module
    builds expressions from.
    - [e1 + e2] with [e1] an [Expression] calls [e1.__add__(e2)]: the
      reflected method of the right operand only has priority when its class
      is a proper subclass that overrides [__radd__], and [Variable] does not.
    - [n + e] with [n] an [int]: [int.__add__] returns [NotImplemented], so
      [e.__radd__(n)] is called.
    - [e1 == e2]: for comparisons the right operand's method has priority as
      soon as its class is a proper subclass of the left operand's class,
      that is when [e1] is a plain [Expression] and [e2] a [Variable]. *)

Definition is_Variable (h : list object) (a : addr) : bool :=
  match h !! a with Some (OVariable _ _) => true | _ => false end.

Definition is_plain_Expression (h : list object) (a : addr) : bool :=
  match h !! a with Some (OExpression _ _) => true | _ => false end.

Definition infix_add (e1 e2 : addr) : M addr :=
  Expression.__add__ e1 (VExpr e2).

Definition infix_add_int (n : Z) (e : addr) : M addr :=
  Expression.__radd__ e (VInt n).

Definition infix_eq (e1 e2 : addr) : M addr :=
  λ st, if is_plain_Expression (heap st) e1 && is_Variable (heap st) e2
        then Expression.__eq__ e2 (VExpr e1) st
        else Expression.__eq__ e1 (VExpr e2) st.

(** ** Well-formed heaps *)

(** Every reference held by a node is older than the node. *)
Definition wf_object (a : addr) (o : object) : bool :=
  match o with
  | OExpression _ values =>
      forallb (λ v, match v with ORef b => (b <? a)%nat | _ => true end) values
  | OVariable _ _ => true
  end.

Definition heap_wf (h : list object) : bool :=
  forallb id (imap wf_object h).

(** ** Python dictionaries

    A [dict] keeps its keys in insertion order; [solve] iterates over
    [self._variables.values()], so the order is part of the model. *)

Definition dict (V : Type) : Type := list (string * V).

Fixpoint dict_get {V} (k : string) (d : dict V) : option V :=
  match d with
  | [] => None
  | (k', v) :: d' => if String.eqb k k' then Some v else dict_get k d'
  end.

(** [d[k] = v]: replaces the value of a key in place, appends a new key. *)
Fixpoint dict_set {V} (k : string) (v : V) (d : dict V) : dict V :=
  match d with
  | [] => [(k, v)]
  | (k', v') :: d' =>
      if String.eqb k k' then (k, v) :: d' else (k', v') :: dict_set k v d'
  end.

Definition dict_values {V} (d : dict V) : list V := map snd d.

(** ** [Solver] *)

(** [type(v).__name__] as the interpreter's [AttributeError] prints it. *)
Definition type_name (v : value) : string :=
  match v with
  | VNone => "NoneType"
  | VBool _ => "bool"
  | VInt _ => "int"
  | VNpInt _ => "numpy.int64"
  | VStr _ => "str"
  | VRange _ _ _ => "range"
  | VDomain _ _ => "DomainRange"
  | VNotImplemented => "NotImplementedType"
  | VExpr _ => "Expression"
  | VArray false _ _ => "numpy.ndarray"
  | VArray true _ _ => "Variables"
  | VNpBool _ => "numpy.bool_"
  | VNpFloat _ => "numpy.float64"
  | VNpStr _ => "numpy.str_"
  end.

Definition no_attribute (v : value) (attr : string) : exn :=
  AttributeError ("'" +:+ type_name v +:+ "' object has no attribute '" +:+ attr +:+ "'").

Definition dup_name_msg : string :=
  "Two variables with the same name in the same model".

Module Solver.

(** [_conststore] holds the registered constraints in order; only
    [Expression] instances reach the [append].  [_variables] maps a name
    to the [Variable] object registered under it. *)
Record t := mk { _conststore : list addr; _variables : dict addr }.

Definition __init__ : t := mk [] [].

(** The loop [for v in c.variables(): ...] of [add_constraint].  ([v] is a
    [Variable]; on any other object [v.name] would raise.) *)
Fixpoint register (h : list object) (vs : list addr) (vars : dict addr)
  : dict addr * result unit :=
  match vs with
  | [] => (vars, Ok ())
  | v :: vs' =>
      match h !! v with
      | Some (OVariable name _) =>
          match dict_get name vars with
          | None => register h vs' (dict_set name v vars)
          | Some v' =>
              if (v' =? v)%nat then register h vs' vars
              else (vars, Raise (ValueError dup_name_msg))
          end
      | _ => (vars, Raise (no_attribute (VExpr v) "name"))
      end
  end.

(** [add_constraint(self, c)] reads the heap and updates the solver; the
    result is [None] only when [c.variables()] has no value in the
    model. *)
Fixpoint add_constraint (h : list object) (self : t) (c : value) {struct c}
  : option (t * result unit) :=
  match c with
  | VNone | VNpInt _ => Some (self, Ok ())
  | VArray true _ flat =>
      (fix loop (l : list value) (self : t) : option (t * result unit) :=
         match l with
         | [] => Some (self, Ok ())
         | v :: l' =>
             match add_constraint h self v with
             | Some (self', Ok _) => loop l' self'
             | r => r
             end
         end) flat self
  | VExpr a =>
      match Expression.variables h a with
      | None => None
      | Some vs =>
          match register h vs (_variables self) with
          | (vars, Ok _) => Some (mk (_conststore self ++ [a]) vars, Ok ())
          | (vars, Raise e) => Some (mk (_conststore self) vars, Raise e)
          end
      end
  | _ => Some (self, Raise (no_attribute c "variables"))
  end.

End Solver.

(** ** [SolverPulp]: lowering to the backend

    The backend (pulp) is outside the module.  Its objects, the constructor
    of its integer variables and the meaning it gives to [+] and [==] on
    lowered operands are parameters. *)

(** What [_convert_constraint] returns: an integer literal as it is, [None]
    for an operator it does not know, or a backend object. *)
Inductive lowered (lpobj : Type) :=
| LBool (b : bool)
| LInt (z : Z)
| LNpInt (z : Z)
| LNone
| LObj (o : lpobj).
Arguments LBool {lpobj} b.
Arguments LInt {lpobj} z.
Arguments LNpInt {lpobj} z.
Arguments LNone {lpobj}.
Arguments LObj {lpobj} o.

Definition sub_None_msg : string :=
  "unsupported operand type(s) for -: 'NoneType' and 'int'".

(** *** The lowering as the specification describes it

    A constraint tree: an integer literal, a variable with its name and
    bounds (the upper bound is set), a "+" node or a "=" node with two
    operands. *)
Inductive tree :=
| TBool (b : bool)
| TInt (z : Z)
| TNpInt (z : Z)
| TVar (name : string) (low : option Z) (up : Z)
| TAdd (l r : tree)
| TEq (l r : tree).

(** [denotes h c t]: in the heap [h] the operand [c] is the root of the
    tree [t]. *)
Fixpoint denotes (h : list object) (c : operand) (t : tree) : bool :=
  match t, c with
  | TBool b, OBool b' => bool_decide (b = b')
  | TInt z, OInt z' => bool_decide (z = z')
  | TNpInt z, ONpInt z' => bool_decide (z = z')
  | TVar name low up, ORef a =>
      match h !! a with
      | Some (OVariable name' (DomainRange.__init__ low' (Some up'))) =>
          bool_decide (name = name') && bool_decide (low = low')
          && bool_decide (up = up')
      | _ => false
      end
  | TAdd l r, ORef a =>
      match h !! a with
      | Some (OExpression (Some op) [cl; cr]) =>
          bool_decide (op = "+") && denotes h cl l && denotes h cr r
      | _ => false
      end
  | TEq l r, ORef a =>
      match h !! a with
      | Some (OExpression (Some op) [cl; cr]) =>
          bool_decide (op = "=") && denotes h cl l && denotes h cr r
      | _ => false
      end
  | _, _ => false
  end.

(** The number of objects on the longest path of a tree. *)
Fixpoint depth (t : tree) : nat :=
  match t with
  | TBool _ | TInt _ | TNpInt _ => 0
  | TVar _ _ _ => 1
  | TAdd l r | TEq l r => S (Nat.max (depth l) (depth r))
  end.

(** The fuel [_convert_constraint] gives to an operand. *)
Definition fuel_of (c : operand) : nat :=
  match c with ORef a => S a | _ => 0 end.

Module SolverPulp.
Section Backend.

Variable lpobj : Type.
(** [pulp.LpVariable(name, lowBound, upBound, pulp.LpInteger)]; a
    [lowBound] of [None] is accepted by the backend. *)
Variable LpVariable : string → option Z → Z → lpobj.
(** [a + b] and [a == b] on lowered operands. *)
Variable lp_add : lowered lpobj → lowered lpobj → result (lowered lpobj).
Variable lp_eq : lowered lpobj → lowered lpobj → result (lowered lpobj).

(** Lowering threads [self._lpvars]; [None] means out of fuel or a
    dangling reference. *)
Definition L (A : Type) : Type :=
  gmap string lpobj → option (gmap string lpobj * result A).

Definition retL {A} (a : A) : L A := λ lps, Some (lps, Ok a).
Definition raiseL {A} (e : exn) : L A := λ lps, Some (lps, Raise e).
Definition bindL {A B} (m : L A) (k : A → L B) : L B :=
  λ lps, match m lps with
         | Some (lps', Ok a) => k a lps'
         | Some (lps', Raise e) => Some (lps', Raise e)
         | None => None
         end.

Fixpoint mapL {A B} (f : A → L B) (l : list A) : L (list B) :=
  match l with
  | [] => retL []
  | x :: l' => bindL (f x) (λ y, bindL (mapL f l') (λ ys, retL (y :: ys)))
  end.

(** [l[i]] on a Python list. *)
Definition index {A} (l : list A) (i : nat) : L A :=
  match l !! i with
  | Some x => retL x
  | None => raiseL (IndexError "list index out of range")
  end.

Definition _add_lpvar (h : list object) (v : addr) : L lpobj :=
  λ lps,
    match h !! v with
    | Some (OVariable name domain) =>
        match lps !! name with
        | Some lv => Some (lps, Ok lv)
        | None =>
            match DomainRange.max domain with
            | None => Some (lps, Raise (TypeError sub_None_msg))
            | Some up =>
                let lv := LpVariable name (DomainRange.min domain) (up - 1) in
                Some (<[name := lv]> lps, Ok lv)
            end
        end
    | Some (OExpression _ _) => Some (lps, Raise (no_attribute (VExpr v) "name"))
    | None => None
    end.

Fixpoint convert_fuel (fuel : nat) (h : list object) (c : operand)
  : L (lowered lpobj) :=
  match c with
  | OBool b => retL (LBool b)
  | OInt z => retL (LInt z)
  | ONpInt z => retL (LNpInt z)
  | ORef a =>
      match fuel with
      | 0 => λ _, None
      | S fuel' =>
          match h !! a with
          | Some (OVariable _ _) => bindL (_add_lpvar h a) (λ lv, retL (LObj lv))
          | Some (OExpression op values) =>
              bindL (mapL (convert_fuel fuel' h) values) (λ lpexpr,
                if bool_decide (op = Some "+") then
                  bindL (index lpexpr 0) (λ x,
                  bindL (index lpexpr 1) (λ y, λ lps, Some (lps, lp_add x y)))
                else if bool_decide (op = Some "=") then
                  bindL (index lpexpr 0) (λ x,
                  bindL (index lpexpr 1) (λ y, λ lps, Some (lps, lp_eq x y)))
                else retL LNone)
          | None => λ _, None
          end
      end
  end.

(** As for [variables], [S a] steps are enough on a well-formed heap. *)
Definition _convert_constraint (h : list object) (c : operand)
  : L (lowered lpobj) :=
  convert_fuel (fuel_of c) h c.

(** The part of [solve] before the call to the backend: [self._lpvars] is
    reset, a backend variable is created for each target variable, and
    every stored constraint is lowered in order. *)
Definition solve_lowering (h : list object) (self : Solver.t)
    (variables : option (list addr)) : option (gmap string lpobj * result (list (lowered lpobj))) :=
  let variables := default (dict_values (Solver._variables self)) variables in
  bindL (mapL (_add_lpvar h) variables) (λ _,
    mapL (λ c, _convert_constraint h (ORef c)) (Solver._conststore self)) ∅.

(** The lowering in the words of the specification, on a tree: an integer
    literal lowers to itself; a variable lowers to the backend variable
    memoized under its name, created with the inclusive bounds [low] and
    [up - 1]; a "+" node lowers to the backend's sum of its two lowered
    operands and a "=" node to the backend's equality of them. *)
Fixpoint lower_spec (t : tree) (lps : gmap string lpobj)
  : gmap string lpobj * result (lowered lpobj) :=
  let binary combine l r :=
    match lower_spec l lps with
    | (lps1, Ok x) =>
        match lower_spec r lps1 with
        | (lps2, Ok y) => (lps2, combine x y)
        | (lps2, Raise e) => (lps2, Raise e)
        end
    | (lps1, Raise e) => (lps1, Raise e)
    end in
  match t with
  | TBool b => (lps, Ok (LBool b))
  | TInt z => (lps, Ok (LInt z))
  | TNpInt z => (lps, Ok (LNpInt z))
  | TVar name low up =>
      match lps !! name with
      | Some lv => (lps, Ok (LObj lv))
      | None =>
          let lv := LpVariable name low (up - 1) in
          (<[name := lv]> lps, Ok (LObj lv))
      end
  | TAdd l r => binary lp_add l r
  | TEq l r => binary lp_eq l r
  end.

End Backend.
End SolverPulp.

(** A symbolic backend, which records the calls it receives; the lowering
    is run on it in the examples. *)
#[warnings="-register-all"]
Inductive sym :=
| SymVariable (name : string) (low : option Z) (up : Z)
| SymAdd (x y : lowered sym)
| SymEq (x y : lowered sym).

Definition sym_add (x y : lowered sym) : result (lowered sym) := Ok (LObj (SymAdd x y)).
Definition sym_eq (x y : lowered sym) : result (lowered sym) := Ok (LObj (SymEq x y)).

(** ** The host array library

    What the module uses of numpy: conversion of a [ufunc] input to an
    array, broadcasting of two inputs, and the [ufunc] objects, with their
    numbers of inputs and of outputs.  Memory is unbounded: a [range] is
    converted whatever its length. *)

Record ufunc := mk_ufunc { ufunc_name : string; nin : nat; nout : nat }.

Definition np_equal : ufunc := mk_ufunc "equal" 2 1.

Definition ufunc_eqb (u1 u2 : ufunc) : bool :=
  String.eqb (ufunc_name u1) (ufunc_name u2) && (nin u1 =? nin u2)%nat
  && (nout u1 =? nout u2)%nat.

(** What [__array_ufunc__] returns: one object, or a tuple of objects for
    a ufunc with several outputs. *)
Inductive returned :=
| One (v : value)
| Tuple (items : list value).

(** The number of elements of an array of a given shape. *)
Definition size (shape : list nat) : nat := foldr Nat.mul 1%nat shape.

(** The items of [range(start, stop, step)]. *)
Definition range_len (start stop step : Z) : nat :=
  Z.to_nat (if (0 <? step)%Z then (stop - start + step - 1) / step
            else if (step <? 0)%Z then (start - stop - step - 1) / (- step)
            else 0)%Z.

Definition range_items (start stop step : Z) : list Z :=
  (λ i, start + step * Z.of_nat i)%Z <$> seq 0 (range_len start stop step).

(** The element type numpy finds for a Python [int]: a signed 64-bit
    integer, an unsigned one when the value is too large for that, and
    [object] (the array then holds the Python [int] itself) outside both. *)
Definition is_int64 (z : Z) : bool := ((- 2 ^ 63 <=? z) && (z <? 2 ^ 63))%Z.
Definition is_uint64 (z : Z) : bool := ((2 ^ 63 <=? z) && (z <? 2 ^ 64))%Z.
Definition is_np_integer (z : Z) : bool := is_int64 z || is_uint64 z.

(** The conversion of a Python [int] to [float64]: to the nearest value
    with 53 significant bits, ties to the even one. *)
Definition float64_of_int (z : Z) : Z :=
  let a := Z.abs z in
  if (a <? 2 ^ 53)%Z then z
  else
    let e := (Z.log2 a - 52)%Z in
    let q := (a / 2 ^ e)%Z in
    let r := (a mod 2 ^ e)%Z in
    let half := (2 ^ (e - 1))%Z in
    let q' := if (r <? half)%Z then q
              else if (half <? r)%Z then (q + 1)%Z
              else if Z.even q then q else (q + 1)%Z in
    (Z.sgn z * (q' * 2 ^ e))%Z.

(** An element of a numpy string array has no trailing NUL characters. *)
Fixpoint rstrip_nul (s : string) : string :=
  match s with
  | EmptyString => EmptyString
  | String c s' =>
      match rstrip_nul s' with
      | EmptyString => if Ascii.eqb c "000" then EmptyString else String c EmptyString
      | t => String c t
      end
  end.

(** [np.asarray(v)]: the shape and the elements as iterating over the array
    yields them.
    - An array is itself.
    - A Python [bool], [int] or [str] becomes a zero-dimensional array of
      booleans, integers or strings, whose element is a numpy scalar; an
      [int] outside the 64-bit integers becomes a zero-dimensional [object]
      array, whose element is the [int].
    - A [range] becomes a one-dimensional array.  Its element type is the
      common type of its items: a 64-bit integer type when they all have
      the same one, [float64] when signed and unsigned ones are mixed, and
      [object] when an item is outside the 64-bit integers.
    - Any other object, a numpy scalar included, becomes a zero-dimensional
      array holding it. *)
Definition as_array (v : value) : list nat * list value :=
  match v with
  | VArray _ shape flat => (shape, flat)
  | VBool b => ([], [VNpBool b])
  | VInt z => ([], [if is_np_integer z then VNpInt z else VInt z])
  | VStr s => ([], [VNpStr (rstrip_nul s)])
  | VRange start stop step =>
      let items := range_items start stop step in
      ([length items],
       if forallb is_np_integer items then
         if forallb is_int64 items || forallb is_uint64 items
         then VNpInt <$> items
         else (λ z, VNpFloat (float64_of_int z)) <$> items
       else VInt <$> items)
  | _ => ([], [v])
  end.

(** Broadcasting.  Shapes are aligned on their last axis; two lengths are
    compatible when they are equal or one of them is 1.  The functions
    suffixed [_rev] work on reversed shapes (last axis first). *)
Fixpoint broadcast_shape_rev (s1 s2 : list nat) : option (list nat) :=
  match s1, s2 with
  | [], s | s, [] => Some s
  | d1 :: s1', d2 :: s2' =>
      match (if (d1 =? d2)%nat then Some d1
             else if (d1 =? 1)%nat then Some d2
             else if (d2 =? 1)%nat then Some d1
             else None), broadcast_shape_rev s1' s2' with
      | Some d, Some s => Some (d :: s)
      | _, _ => None
      end
  end.

Definition broadcast_shape (s1 s2 : list nat) : option (list nat) :=
  (λ s, rev s) <$> broadcast_shape_rev (rev s1) (rev s2).

(** The multi-index (last axis first) of the [k]-th element in row-major
    order. *)
Fixpoint unravel_rev (shape_rev : list nat) (k : nat) : list nat :=
  match shape_rev with
  | [] => []
  | d :: s => (k mod d)%nat :: unravel_rev s (k / d)%nat
  end.

(** The flat position, in an input of shape [shape_rev], of the element
    broadcast to a multi-index: an axis of length 1 is repeated, the axes
    the input lacks are ignored. *)
Fixpoint ravel_rev (shape_rev idx_rev : list nat) : nat :=
  match shape_rev, idx_rev with
  | d :: s, i :: idx => ((if (d =? 1)%nat then 0 else i) + d * ravel_rev s idx)%nat
  | _, _ => 0%nat
  end.

(** [np.broadcast(x, y)]: the broadcast shape and the pairs it yields. *)
Definition broadcast (x y : value) : result (list nat * list (value * value)) :=
  let '(s1, f1) := as_array x in
  let '(s2, f2) := as_array y in
  match broadcast_shape s1 s2 with
  | None =>
      Raise (ValueError
        "shape mismatch: objects cannot be broadcast to a single shape")
  | Some s =>
      Ok (s, (λ k, let idx := unravel_rev (rev s) k in
                   (default VNone (f1 !! ravel_rev (rev s1) idx),
                    default VNone (f2 !! ravel_rev (rev s2) idx)))
             <$> seq 0 (size s))
  end.

(** ** [Variables] *)

Definition fmapM {A B} (f : A → B) (m : M A) : M B :=
  let* a := m in ret (f a).

(** [try: m except BaseException: handler]. *)
Definition try_except {A} (m : M A) (handler : exn → M A) : M A :=
  λ st, match m st with
        | (st', Raise e) => handler e st'
        | r => r
        end.

(** [a == b] for two Python objects.  With an [Expression] on the left
    [__eq__] is called (see [infix_eq] for two expressions).  With a
    built-in object on the left and an [Expression] on the right, the
    built-in [__eq__] returns [NotImplemented] and the reflected
    [b.__eq__(a)] is called.  When the left operand is a numpy scalar or
    array, or when neither operand is an [Expression], the comparison
    belongs to the host language and library: [host_eq]. *)
Definition py_eq (host_eq : value → value → M value) (a b : value) : M value :=
  match a, b with
  | VExpr e1, VExpr e2 => fmapM VExpr (infix_eq e1 e2)
  | VExpr e1, _ => fmapM VExpr (Expression.__eq__ e1 b)
  | (VNpInt _ | VArray _ _ _ | VNpBool _ | VNpFloat _ | VNpStr _), _ => host_eq a b
  | _, VExpr e2 => fmapM VExpr (Expression.__eq__ e2 a)
  | _, _ => host_eq a b
  end.

Module Variables.
Section Host.

(** The comparison of the host language and library (see [py_eq]). *)
Variable host_eq : value → value → M value.

(** [np.ndarray.__array_ufunc__], the default dispatch; the last argument
    is the [out] keyword.  For a ufunc with one output it returns one
    object, the result or [NotImplemented]: [ndarray__array_ufunc__].  For
    a ufunc with several outputs it returns the tuple of the results, or
    [NotImplemented], which is [None] here:
    [ndarray__array_ufunc__tuple]. *)
Variable ndarray__array_ufunc__ :
  ufunc → string → list value → option (list value) → M value.
Variable ndarray__array_ufunc__tuple :
  ufunc → string → list value → option (list value) → M (option (list value)).

(** [Variables(shape, domain, name_prefix)]. *)
Definition __new__ (shape : list nat) (domain : domain_arg)
    (name_prefix : option string) : M value :=
  let* name_prefix := match name_prefix with
                      | None => Variable_.new_name
                      | Some p => ret p
                      end in
  let* flat := mapM_ (λ i : nat,
                 Variable_.__init__ domain (Some (name_prefix +:+ "_" +:+ pretty i)))
                 (seq 0 (size shape)) in
  ret (VArray true shape (VExpr <$> flat)).

(** [i.view(np.ndarray)] and [np.asarray(r).view(Variables)]. *)
Definition view (is_Variables : bool) (v : value) : value :=
  let '(shape, flat) := as_array v in VArray is_Variables shape flat.

Definition is_Variables_instance (v : value) : bool :=
  match v with VArray true _ _ => true | _ => false end.

(** [_call_ufunc] on a ufunc with one output (for the others, see
    [__array_ufunc__]).  [np.equal] has two inputs, and numpy rejects a call
    with another number of them before it dispatches: the last case of the
    [match] on [inputs] stands for the failure to unpack the pairs.  With an
    [out] argument [results] is the tuple of outputs, which has no [flat]. *)
Definition _call_ufunc (u : ufunc) (method : string) (inputs : list value)
    (out : option (list value)) : M value :=
  if ufunc_eqb u np_equal && String.eqb method "__call__" then
    match inputs with
    | [x; y] =>
        let* bc := lift (broadcast x y) in
        let* items := mapM_ (λ ab, py_eq host_eq ab.1 ab.2) bc.2 in
        match out with
        | None => ret (VArray false bc.1 items)
        | Some _ => raise (AttributeError "'tuple' object has no attribute 'flat'")
        end
    | _ => raise (ValueError "not enough values to unpack (expected 2)")
    end
  else ndarray__array_ufunc__ u method inputs out.

(** With one output, [results] is made a tuple of one element and the
    first element of the converted tuple is returned.  With several,
    [_call_ufunc] is the default dispatch ([np.equal] has one output), and
    [zip] runs over what it returns: the tuple of results, or
    [NotImplemented], which cannot be iterated over (the message of this
    [TypeError] depends on the interpreter; the handler does not read
    it). *)
Definition __array_ufunc__ (u : ufunc) (method : string) (inputs : list value)
    (out : option (list value)) : M returned :=
  try_except
    (let inputs := (λ i, if is_Variables_instance i then view false i else i) <$> inputs in
     let convout : list bool :=
       match out with
       | Some outputs => is_Variables_instance <$> outputs
       | None => replicate (nout u) true
       end in
     let out' : option (list value) :=
       match out with
       | Some outputs =>
           Some ((λ o, if is_Variables_instance o then view false o else o) <$> outputs)
       | None => None
       end in
     let convert := (λ vr : bool * value, if vr.1 then view true vr.2 else vr.2) in
     if (nout u =? 1)%nat then
       let* results := _call_ufunc u method inputs out' in
       match convert <$> zip convout [results] with
       | r :: _ => ret (One r)
       | [] => raise (IndexError "tuple index out of range")
       end
     else
       let* results := ndarray__array_ufunc__tuple u method inputs out' in
       match results with
       | Some results => ret (Tuple (convert <$> zip convout results))
       | None => raise (TypeError "zip argument #2 must support iteration")
       end)
    (λ _, ret (One VNone)).

(** [x == y] on arrays: [ndarray.__eq__] calls the ufunc [np.equal], which
    dispatches to [Variables.__array_ufunc__] when an operand is a
    [Variables] instance. *)
Definition array_eq (x y : value) : M returned :=
  __array_ufunc__ np_equal "__call__" [x; y] None.

End Host.
End Variables.

(** ** Sequences of constructions

    A driver for the statements about the process-wide counter: the calls
    that can draw a name from [Variable.new_name], run one after the other.
    A call that raises leaves its effects and the run goes on with the next
    call, as when the caller catches the exception. *)

Inductive construction :=
| NewVariable (domain : domain_arg) (name : option string)
| NewVariables (shape : list nat) (domain : domain_arg) (name_prefix : option string)
| NewName.

Definition construct (c : construction) : M value :=
  match c with
  | NewVariable domain name => fmapM VExpr (Variable_.__init__ domain name)
  | NewVariables shape domain name_prefix =>
      Variables.__new__ shape domain name_prefix
  | NewName => fmapM VStr Variable_.new_name
  end.

Fixpoint run (cs : list construction) (st : state)
  : state * list (construction * result value) :=
  match cs with
  | [] => (st, [])
  | c :: cs' =>
      let '(st1, r) := construct c st in
      let '(st', rs) := run cs' st1 in
      (st', (c, r) :: rs)
  end.

(** The names of the [Variable] objects among some values. *)
Definition names_of (h : list object) (vs : list value) : list string :=
  omap (λ v, match v with
             | VExpr a =>
                 match h !! a with
                 | Some (OVariable name _) => Some name
                 | _ => None
                 end
             | _ => None
             end) vs.

(** The names a construction drew from the generator: the name of a
    [Variable] built without a name, the names of the elements of a
    [Variables] container built without a prefix, and the result of a direct
    call. *)
Definition generated (h : list object) (c : construction) (r : result value)
  : list string :=
  match c, r with
  | NewVariable _ None, Ok v => names_of h [v]
  | NewVariables _ _ None, Ok (VArray _ _ flat) => names_of h flat
  | NewName, Ok (VStr s) => [s]
  | _, _ => []
  end.

Definition auto_names (h : list object)
    (rs : list (construction * result value)) : list string :=
  rs ≫= (λ cr, generated h cr.1 cr.2).

(** The name drawn at counter value [k], and the name of the [i]-th element
    of a container whose prefix was drawn at [k]. *)
Definition render (key : nat * option nat) : string :=
  match key.2 with
  | None => "var_" +:+ pretty key.1
  | Some i => ("var_" +:+ pretty key.1) +:+ "_" +:+ pretty i
  end.

Definition is_digit (c : ascii) : bool :=
  (48 <=? nat_of_ascii c) && (nat_of_ascii c <=? 57).

Fixpoint digits (s : string) : bool :=
  match s with
  | EmptyString => true
  | String c s' => is_digit c && digits s'
  end.

(** ** More of [Solver]: what a value registers, and the solver's invariant *)

(** The expressions [add_constraint(c)] appends when it returns: [c] itself
    when it is an expression, the expressions met in the elements of a
    [Variables] container, in order, and nothing for [None] and numpy
    integers. *)
Fixpoint flat_constraints (c : value) : list addr :=
  match c with
  | VExpr a => [a]
  | VArray true _ flat =>
      (fix go (l : list value) : list addr :=
         match l with
         | [] => []
         | v :: l' => flat_constraints v ++ go l'
         end) flat
  | _ => []
  end.

(** The loop [for v in c.flat: self.add_constraint(v)]. *)
Fixpoint add_all (h : list object) (self : Solver.t) (l : list value)
  : option (Solver.t * result unit) :=
  match l with
  | [] => Some (self, Ok ())
  | v :: l' =>
      match Solver.add_constraint h self v with
      | Some (self', Ok _) => add_all h self' l'
      | r => r
      end
  end.

(** [v] is a [Variable] and the map binds its name to it. *)
Definition registered (h : list object) (d : dict addr) (v : addr) : bool :=
  match h !! v with
  | Some (OVariable name _) =>
      match dict_get name d with
      | Some v' => (v' =? v)%nat
      | None => false
      end
  | _ => false
  end.

(** An entry of the map binds the name of a [Variable] to it. *)
Definition entry_ok (h : list object) (entry : string * addr) : bool :=
  match h !! entry.2 with
  | Some (OVariable name _) => String.eqb entry.1 name
  | _ => false
  end.

(** The invariant of a solver: the map binds each name once, to a
    [Variable] of that name, and every variable of every stored constraint
    is registered. *)
Definition solver_ok (h : list object) (s : Solver.t) : bool :=
  forallb (entry_ok h) (Solver._variables s)
  && bool_decide (NoDup (Solver._variables s).*1)
  && forallb (λ c, match Expression.variables h c with
                   | Some vs => forallb (registered h (Solver._variables s)) vs
                   | None => false
                   end) (Solver._conststore s).

(** The node [a == b] builds for two expressions, as [infix_eq] decides the
    order of the operands in the heap [h]. *)
Definition eq_node (h : list object) (ab : addr * addr) : object :=
  OExpression (Some "=")
    (if is_plain_Expression h ab.1 && is_Variable h ab.2
     then [ORef ab.2; ORef ab.1] else [ORef ab.1; ORef ab.2]).

(** A relation between the memo [_lpvars] before and after a step of the
    lowering that holds along any sequence of steps. *)
Definition memo_step {lpobj} (P : gmap string lpobj → gmap string lpobj → Prop) : Prop :=
  (∀ lps, P lps lps) ∧ (∀ l1 l2 l3, P l1 l2 → P l2 l3 → P l1 l3).

(** What [_add_lpvar] does to the memo: nothing, or one new entry, made
    from a [Variable] of the heap with that name and a set upper bound. *)
Definition memo_grows {lpobj} (LpVariable : string → option Z → Z → lpobj)
    (h : list object) (lps lps' : gmap string lpobj) : Prop :=
  lps ⊆ lps'
  ∧ ∀ n lv, lps' !! n = Some lv →
      lps !! n = Some lv
      ∨ ∃ v low up, h !! v = Some (OVariable n (DomainRange.__init__ low (Some up)))
                    ∧ lv = LpVariable n low (up - 1)%Z.

(** The variable [v] has its backend variable in the memo. *)
Definition memoized {lpobj} (h : list object) (lps : gmap string lpobj) (v : addr) : Prop :=
  ∃ name dom, h !! v = Some (OVariable name dom) ∧ is_Some (lps !! name).

(** ** [SolutionPulp] *)

Module SolutionPulp.
Section Values.

(** The values the backend assigns ([varValue] is a number or [None]). *)
Variable V : Type.

(** What a solution reads of a backend variable. *)
Record lpvar : Type := mk_lpvar { name : string; varValue : V }.

Record t : Type := __init__ { _status : Z; _variables : list lpvar }.

(** [{v.name: v.varValue for v in self._variables}]. *)
Definition variables_dict (self : t) : dict V :=
  foldl (λ d v, dict_set (name v) (varValue v) d) [] (_variables self).

End Values.
End SolutionPulp.

(** ** [main]

    [main] up to the point where [s.solve()] hands the problem to the
    backend.  [solver()] is called with its default backend and returns a
    new [SolverPulp]; the three variables get the default domain and
    generated names; in [a + b == c] the left operand is a plain
    [Expression] and the right one a [Variable] (see [infix_eq]). *)
Definition main_constraint : M addr :=
  let* a := Variable_.__init__ DomNone None in
  let* b := Variable_.__init__ DomNone None in
  let* c := Variable_.__init__ DomNone None in
  let* ab := infix_add a b in
  infix_eq ab c.

(** The state, the solver and the memo [_lpvars] when [s.solve()] calls the
    backend or an exception leaves [main]; [None] as for [solve_lowering]. *)
Definition main {lpobj} (LpVariable : string → option Z → Z → lpobj)
    (lp_add lp_eq : lowered lpobj → lowered lpobj → result (lowered lpobj))
    (st : state)
  : option (state * Solver.t * gmap string lpobj * result (list (lowered lpobj))) :=
  let s := Solver.__init__ in
  match main_constraint st with
  | (st', Ok e) =>
      match Solver.add_constraint (heap st') s (VExpr e) with
      | Some (s', Ok _) =>
          match SolverPulp.solve_lowering lpobj LpVariable lp_add lp_eq (heap st') s' None with
          | Some (lps, r) => Some (st', s', lps, r)
          | None => None
          end
      | Some (s', Raise e) => Some (st', s', ∅, Raise e)
      | None => None
      end
  | (st', Raise e) => Some (st', s, ∅, Raise e)
  end.




(** * Properties *)

(** ** Heaps *)

Lemma heap_wf_lookup (h : list object) (a : addr) (o : object) :
  heap_wf h = true → h !! a = Some o → wf_object a o = true.
Proof.
  unfold heap_wf. rewrite forallb_forall. intros Hwf Ha.
  apply (Hwf (wf_object a o)), list_elem_of_In, list_elem_of_lookup.
  exists a. by rewrite list_lookup_imap, Ha.
Qed.

Lemma heap_wf_snoc (h : list object) (o : object) :
  heap_wf h = true → wf_object (length h) o = true → heap_wf (h ++ [o]) = true.
Proof.
  unfold heap_wf. intros Hwf Ho.
  rewrite imap_app, forallb_app, Hwf. simpl.
  by rewrite Nat.add_0_r, Ho.
Qed.

Lemma wf_object_ref (a b : addr) (op : option string) (values : list operand) :
  wf_object a (OExpression op values) = true → ORef b ∈ values → b < a.
Proof.
  simpl. rewrite forallb_forall. intros Hall Hb.
  apply list_elem_of_In, Hall in Hb. by apply Nat.ltb_lt.
Qed.

Lemma elem_of_expression_values (a : addr) (values : list operand) :
  a ∈ Expression.expression_values values ↔ ORef a ∈ values.
Proof.
  unfold Expression.expression_values. rewrite list_elem_of_omap. split.
  - intros (v & Hv & Heq). destruct v; by simplify_eq.
  - intros Hin. by exists (ORef a).
Qed.

(** ** [Expression.__init__] *)

Lemma check_values_Ok (values : list value) (os : list operand) :
  Expression.check_values values = Ok os ↔ values = operand_value <$> os.
Proof.
  revert os. induction values as [|v vs IH]; intros os; simpl.
  - split; [intros [= <-]; done|]. by destruct os.
  - destruct (as_operand v) as [o|] eqn:Hv.
    + destruct (Expression.check_values vs) as [os'|e] eqn:Hvs.
      * split.
        -- intros [= <-]. simpl. f_equal; [by destruct v; simplify_eq/=|by apply IH].
        -- destruct os as [|o' os]; [done|]. intros [= -> Hos].
           apply IH in Hos as [= ->]. f_equal. f_equal.
           destruct o'; by simplify_eq/=.
      * split; [done|]. destruct os as [|o' os]; [done|]. intros [= -> Hos].
        by apply IH in Hos.
    + split; [done|]. destruct os as [|o' os]; [done|]. intros [= -> _].
      by destruct o'.
Qed.

Lemma check_values_operands (os : list operand) :
  Expression.check_values (operand_value <$> os) = Ok os.
Proof. by apply check_values_Ok. Qed.

Lemma init_operands (op : option string) (os : list operand) (st : state) :
  Expression.__init__ op (operand_value <$> os) st
  = (mkState (heap st ++ [OExpression op os]) (_varidx st), Ok (length (heap st))).
Proof.
  unfold Expression.__init__, bind, lift. by rewrite check_values_operands.
Qed.

(** The first offending value decides the outcome of the assertions. *)
Lemma check_values_Raise (values : list value) :
  (∃ v, v ∈ values ∧ as_operand v = None) →
  ∃ pre v post,
    values = pre ++ v :: post ∧
    Forall (λ u, is_Some (as_operand u)) pre ∧
    as_operand v = None ∧
    Expression.check_values values
    = Raise (AssertionError (bad_operand_msg +:+ type_repr v)).
Proof.
  induction values as [|u us IH]; intros (v & Hin & Hv).
  - by apply elem_of_nil in Hin.
  - simpl. destruct (as_operand u) as [o|] eqn:Hu.
    + apply elem_of_cons in Hin as [->|Hin]; [congruence|].
      destruct IH as (pre & w & post & -> & Hpre & Hw & ->); [by exists v|].
      exists (u :: pre), w, post. split_and!; [done| |done|done].
      constructor; [by rewrite Hu|done].
    + by exists [], u, us.
Qed.

(** ** Domains *)

(** C6.  For all integers [lo < hi], [DomainRange.fromrange(range(lo, hi))]
    returns a domain whose [min] is [lo] and whose [max] is [hi]; for a
    range whose step is not 1 the conversion fails: the assertion on the
    step raises, with the message that sparse ranges are not implemented.
    (This [AssertionError] is what the specification names
    UnsupportedDomainError.) *)
Theorem fromrange_spec (lo hi start stop step : Z) :
  (lo < hi)%Z → step ≠ 1%Z →
  (∃ d, DomainRange.fromrange (range2 lo hi) = Ok d
        ∧ DomainRange.min d = Some lo ∧ DomainRange.max d = Some hi)
  ∧ DomainRange.fromrange (VRange start stop step)
    = Raise (AssertionError "Sparse ranges not implemented yet").
Proof.
  intros _ Hstep. split.
  - by eexists.
  - simpl. destruct (Z.eqb_spec step 1); [done|reflexivity].
Qed.

Lemma fromrange_spec_witness :
  (∃ d, DomainRange.fromrange (range2 0 2) = Ok d
        ∧ DomainRange.min d = Some 0%Z ∧ DomainRange.max d = Some 2%Z)
  ∧ DomainRange.fromrange (VRange 0 10 2)
    = Raise (AssertionError "Sparse ranges not implemented yet").
Proof. apply (fromrange_spec 0 2 0 10 2); [reflexivity|discriminate]. Defined.

(** The same conversion is applied to a [range] passed to [Variable]. *)
Lemma Variable_init_range (lo hi : Z) (name : string) (st : state) :
  Variable_.__init__ (DomRange lo hi 1) (Some name) st
  = (mkState (heap st ++ [OVariable name (DomainRange.__init__ (Some lo) (Some hi))])
       (_varidx st), Ok (length (heap st))).
Proof. reflexivity. Qed.

(** ** Construction of expressions *)

(** C7, as the specification states it, at a concrete input: building
    [x + None] fails, but the exception is an [AssertionError], which is not
    an instance of [TypeError]. *)
Lemma bad_operand_is_not_TypeError :
  let st := mkState [OVariable "x" (DomainRange.__init__ None None)] 0 in
  ∃ e, Expression.__add__ 0 VNone st = (st, Raise e) ∧ is_TypeError e = false.
Proof. by eexists. Qed.

(** C7, amended.  [Expression(op, *values)] checks every operand when the
    node is built: if some operand is neither an [Expression] nor an integer,
    the construction fails at once with the [AssertionError] of the first
    such operand, whose message starts with "Can only build expressions out
    of expressions or integers" and ends with the operand's type; no node is
    allocated and the state is unchanged. *)
Theorem init_rejects_bad_operand (op : option string) (values : list value)
    (st : state) :
  (∃ v, v ∈ values ∧ as_operand v = None) →
  ∃ pre v post,
    values = pre ++ v :: post ∧
    Forall (λ u, is_Some (as_operand u)) pre ∧
    as_operand v = None ∧
    Expression.__init__ op values st
    = (st, Raise (AssertionError (bad_operand_msg +:+ type_repr v))).
Proof.
  intros Hbad.
  destruct (check_values_Raise values Hbad) as (pre & v & post & ? & ? & ? & Hc).
  exists pre, v, post. split_and!; try done.
  unfold Expression.__init__, bind, lift. by rewrite Hc.
Qed.

Lemma init_rejects_bad_operand_witness :
  let st := mkState [OVariable "x" (DomainRange.__init__ None None)] 0 in
  ∃ pre v post,
    [VExpr 0; VStr "y"; VNone] = pre ++ v :: post ∧
    Forall (λ u, is_Some (as_operand u)) pre ∧
    as_operand v = None ∧
    Expression.__init__ (Some "+") [VExpr 0; VStr "y"; VNone] st
    = (st, Raise (AssertionError (bad_operand_msg +:+ type_repr v))).
Proof.
  apply init_rejects_bad_operand.
  exists (VStr "y"). split; [|reflexivity].
  apply elem_of_cons; right. apply elem_of_cons; by left.
Defined.

(** Conversely a node is only built from valid operands, so no later step
    can meet an operand of another type. *)
Lemma init_Ok_operands (op : option string) (values : list value)
    (st st' : state) (r : addr) :
  Expression.__init__ op values st = (st', Ok r) →
  ∃ os, values = operand_value <$> os
        ∧ heap st' = heap st ++ [OExpression op os] ∧ r = length (heap st).
Proof.
  unfold Expression.__init__, bind, lift, alloc.
  destruct (Expression.check_values values) as [os|e] eqn:Hc; [|done].
  intros [= <- <-]. exists os. split; [by apply check_values_Ok|done].
Qed.

(** The constructors build well-formed heaps: a node built from operands
    that exist refers to older objects only. *)
Lemma init_preserves_wf (op : option string) (values : list value)
    (st st' : state) (r : result addr) :
  heap_wf (heap st) = true →
  Forall (λ v, ∀ a, v = VExpr a → a < length (heap st)) values →
  Expression.__init__ op values st = (st', r) →
  heap_wf (heap st') = true.
Proof.
  intros Hwf Hvalues. unfold Expression.__init__, bind, lift, alloc.
  destruct (Expression.check_values values) as [os|e] eqn:Hc;
    intros [= <- <-]; [|done].
  simpl. apply heap_wf_snoc; [done|]. simpl. apply forallb_forall.
  intros o Ho%list_elem_of_In. destruct o as [| | |b]; try done.
  apply Nat.ltb_lt. apply check_values_Ok in Hc as ->.
  rewrite Forall_forall in Hvalues. apply (Hvalues (VExpr b)); [|done].
  apply list_elem_of_fmap. by exists (ORef b).
Qed.

Lemma Variable_init_preserves_wf (d : domain_arg) (name : option string)
    (st st' : state) (r : result addr) :
  heap_wf (heap st) = true →
  Variable_.__init__ d name st = (st', r) →
  heap_wf (heap st') = true.
Proof.
  intros Hwf. unfold Variable_.__init__, bind, lift, alloc, ret, Variable_.new_name.
  destruct name, (Variable_.convert_domain d); intros [= <- <-]; simpl;
    by try apply heap_wf_snoc.
Qed.

(** ** Operators *)

(** C1.  On two [Expression] operands the infix operators build a new
    node and evaluate nothing: [e1 + e2] returns a fresh node with op "+"
    holding [e1] and [e2] in this order, [n + e] with an integer [n] returns
    a fresh node with op "+" holding [n] and [e], and [e1 == e2] returns a
    fresh node with op "=" holding the two operands (a reference to an
    [Expression], not a boolean); the two operands are held in the order
    [e1], [e2], except when Python calls the reflected method
    [e2.__eq__(e1)], where they are held in the order [e2], [e1].  In each
    case the heap after the call is the heap before it followed by the new
    node: no existing node is changed. *)
Theorem operators_build_nodes (host_eq : value → value → M value)
    (st : state) (e1 e2 : addr) (n : Z) :
  (∃ st', infix_add e1 e2 st = (st', Ok (length (heap st)))
     ∧ heap st' = heap st ++ [OExpression (Some "+") [ORef e1; ORef e2]]
     ∧ _varidx st' = _varidx st)
  ∧ (∃ st', infix_add_int n e1 st = (st', Ok (length (heap st)))
     ∧ heap st' = heap st ++ [OExpression (Some "+") [OInt n; ORef e1]]
     ∧ _varidx st' = _varidx st)
  ∧ (∃ st' values, infix_eq e1 e2 st = (st', Ok (length (heap st)))
     ∧ py_eq host_eq (VExpr e1) (VExpr e2) st = (st', Ok (VExpr (length (heap st))))
     ∧ heap st' = heap st ++ [OExpression (Some "=") values]
     ∧ values = (if is_plain_Expression (heap st) e1 && is_Variable (heap st) e2
                 then [ORef e2; ORef e1] else [ORef e1; ORef e2])
     ∧ length values = 2
     ∧ _varidx st' = _varidx st).
Proof.
  split_and!.
  - by eexists.
  - by eexists.
  - unfold py_eq, fmapM, bind, infix_eq.
    destruct (is_plain_Expression (heap st) e1 && is_Variable (heap st) e2);
      eexists _, _; by split_and!.
Qed.

(** The new reference is fresh and every older reference still denotes the
    same object. *)
Lemma alloc_frame (h : list object) (o : object) (a : addr) (o' : object) :
  h !! a = Some o' → (h ++ [o]) !! a = Some o' ∧ a ≠ length h.
Proof.
  intros Ha. split; [by apply lookup_app_l_Some|].
  apply lookup_lt_Some in Ha. lia.
Qed.

(** For comparisons the method of a right operand whose class is a proper
    subclass goes first: [(a + b) == c] with a [Variable] [c] holds [c]
    first. *)
Example eq_reflected_for_Variable :
  let d := DomainRange.__init__ None None in
  let st := mkState [OVariable "a" d; OVariable "b" d; OVariable "c" d;
                     OExpression (Some "+") [ORef 0; ORef 1]] 0 in
  (infix_eq 3 2 st).1
  = mkState (heap st ++ [OExpression (Some "=") [ORef 2; ORef 3]]) 0.
Proof. reflexivity. Qed.

(** ** [variables] *)

Lemma variables_fuel_mono (n m : nat) (h : list object) (a : addr)
    (l : list addr) :
  n ≤ m → Expression.variables_fuel n h a = Some l →
  Expression.variables_fuel m h a = Some l.
Proof.
  revert m a l. induction n as [|n IH]; intros m a l Hle; [done|].
  destruct m as [|m]; [lia|]. simpl.
  destruct (h !! a) as [[op values|name dom]|]; [|done..].
  destruct (mapM (Expression.variables_fuel n h) _) as [ls|] eqn:Hls; [|done].
  intros [= <-]. apply mapM_Some in Hls.
  assert (mapM (Expression.variables_fuel m h)
            (Expression.expression_values values) = Some ls) as ->; [|done].
  apply mapM_Some. eapply Forall2_impl; [done|].
  intros b lb. apply IH. lia.
Qed.

Lemma variables_fuel_app (n : nat) (h h' : list object) (a : addr)
    (l : list addr) :
  Expression.variables_fuel n h a = Some l →
  Expression.variables_fuel n (h ++ h') a = Some l.
Proof.
  revert a l. induction n as [|n IH]; intros a l; [done|]. simpl.
  destruct (h !! a) as [o|] eqn:Ha; [|done].
  rewrite (lookup_app_l_Some _ _ _ _ Ha).
  destruct o as [op values|name dom]; [|done].
  destruct (mapM (Expression.variables_fuel n h) _) as [ls|] eqn:Hls; [|done].
  intros [= <-]. apply mapM_Some in Hls.
  assert (mapM (Expression.variables_fuel n (h ++ h'))
            (Expression.expression_values values) = Some ls) as ->; [|done].
  apply mapM_Some. eapply Forall2_impl; [done|]. intros b lb. apply IH.
Qed.

(** On a well-formed heap [variables] returns on every allocated object. *)
Lemma variables_fuel_total (n : nat) (h : list object) (a : addr) :
  heap_wf h = true → a < length h → a < n →
  is_Some (Expression.variables_fuel n h a).
Proof.
  intros Hwf. revert a. induction n as [|n IH]; intros a Ha Hn; [lia|].
  simpl. destruct (lookup_lt_is_Some_2 h a Ha) as [o Ho]. rewrite Ho.
  destruct o as [op values|name dom]; [|done].
  assert (is_Some (mapM (Expression.variables_fuel n h)
                     (Expression.expression_values values))) as [ls ->]; [|done].
  apply mapM_is_Some, Forall_forall. intros b Hb.
  apply elem_of_expression_values in Hb.
  pose proof (wf_object_ref _ _ _ _ (heap_wf_lookup _ _ _ Hwf Ho) Hb).
  apply IH; lia.
Qed.

Lemma variables_total (h : list object) (a : addr) :
  heap_wf h = true → a < length h → is_Some (Expression.variables h a).
Proof. intros. apply variables_fuel_total; [done..|lia]. Qed.

(** Allocating objects does not change what [variables] returns on the
    objects that were there. *)
Lemma variables_app (h h' : list object) (a : addr) (l : list addr) :
  Expression.variables h a = Some l → Expression.variables (h ++ h') a = Some l.
Proof. apply variables_fuel_app. Qed.

(** [variables] only returns references to [Variable] objects. *)
Lemma variables_fuel_are_Variables (n : nat) (h : list object) (a : addr)
    (l : list addr) :
  Expression.variables_fuel n h a = Some l →
  Forall (λ v, is_Variable h v = true) l.
Proof.
  revert a l. induction n as [|n IH]; intros a l; [done|]. simpl.
  destruct (h !! a) as [[op values|name dom]|] eqn:Ha; [| |done].
  - destruct (mapM (Expression.variables_fuel n h) _) as [ls|] eqn:Hls; [|done].
    intros [= <-]. apply mapM_Some in Hls.
    apply Forall_concat.
    induction Hls as [|b lb bs ls Hb _ IHls]; constructor; [by eapply IH|done].
  - intros [= <-]. constructor; [|done]. unfold is_Variable. by rewrite Ha.
Qed.

Lemma variables_are_Variables (h : list object) (a : addr) (l : list addr) :
  Expression.variables h a = Some l → Forall (λ v, is_Variable h v = true) l.
Proof. apply variables_fuel_are_Variables. Qed.

(** C5.  On a heap built by the constructors, for two expressions [e1] and
    [e2], [variables] returns on both, and on the node [e1 + e2] it returns
    the concatenation of the two lists, in this order and with the
    duplicates kept; on a [Variable] [v] it returns the list [[v]]. *)
Theorem variables_add (st : state) (e1 e2 : addr) :
  heap_wf (heap st) = true → e1 < length (heap st) → e2 < length (heap st) →
  (∃ st' r l1 l2,
     infix_add e1 e2 st = (st', Ok r)
     ∧ Expression.variables (heap st) e1 = Some l1
     ∧ Expression.variables (heap st) e2 = Some l2
     ∧ Expression.variables (heap st') r = Some (l1 ++ l2))
  ∧ (∀ v, is_Variable (heap st) v = true →
          Expression.variables (heap st) v = Some [v]).
Proof.
  intros Hwf H1 H2. split.
  - destruct (variables_total _ _ Hwf H1) as [l1 Hl1].
    destruct (variables_total _ _ Hwf H2) as [l2 Hl2].
    eexists _, _, l1, l2. split_and!; [reflexivity|done..|].
    unfold Expression.variables. simpl.
    rewrite lookup_app_r, Nat.sub_diag by done. simpl.
    rewrite (variables_fuel_mono (S e1) (length (heap st)) _ e1 l1),
            (variables_fuel_mono (S e2) (length (heap st)) _ e2 l2);
      [simpl; by rewrite app_nil_r|lia|by apply variables_fuel_app
      |lia|by apply variables_fuel_app].
  - intros v Hv. unfold is_Variable in Hv. unfold Expression.variables. simpl.
    by destruct (heap st !! v) as [[]|].
Qed.

Lemma variables_add_witness :
  let d := DomainRange.__init__ None None in
  let st := mkState [OVariable "a" d; OVariable "b" d;
                     OExpression (Some "+") [ORef 0; ORef 1]] 0 in
  (∃ st' r l1 l2,
     infix_add 2 0 st = (st', Ok r)
     ∧ Expression.variables (heap st) 2 = Some l1
     ∧ Expression.variables (heap st) 0 = Some l2
     ∧ Expression.variables (heap st') r = Some (l1 ++ l2))
  ∧ (∀ v, is_Variable (heap st) v = true →
          Expression.variables (heap st) v = Some [v]).
Proof. apply variables_add; [reflexivity|simpl; lia|simpl; lia]. Defined.

(** On this heap [(a + b) + a] has the variables [a, b, a]. *)
Example variables_keeps_duplicates :
  let d := DomainRange.__init__ None None in
  let st := mkState [OVariable "a" d; OVariable "b" d;
                     OExpression (Some "+") [ORef 0; ORef 1]] 0 in
  Expression.variables (heap (infix_add 2 0 st).1) 3 = Some [0; 1; 0].
Proof. reflexivity. Qed.

(** ** Dictionaries *)

Lemma dict_get_set_eq {V} (k : string) (v : V) (d : dict V) :
  dict_get k (dict_set k v d) = Some v.
Proof.
  induction d as [|[k' v'] d IH]; simpl.
  - by rewrite String.eqb_refl.
  - destruct (String.eqb_spec k k') as [->|Hne]; simpl.
    + by rewrite String.eqb_refl.
    + by destruct (String.eqb_spec k k').
Qed.

Lemma dict_get_set_ne {V} (k k' : string) (v : V) (d : dict V) :
  k ≠ k' → dict_get k' (dict_set k v d) = dict_get k' d.
Proof.
  intros Hne. induction d as [|[k'' v''] d IH]; simpl.
  - by destruct (String.eqb_spec k' k); [congruence|].
  - destruct (String.eqb_spec k k'') as [->|Hne']; simpl.
    + by destruct (String.eqb_spec k' k''); [congruence|].
    + by rewrite IH.
Qed.

(** Setting a key that is absent leaves every present key as it was. *)
Lemma dict_set_fresh_preserves {V} (k k' : string) (v x : V) (d : dict V) :
  dict_get k d = None → dict_get k' d = Some x →
  dict_get k' (dict_set k v d) = Some x.
Proof.
  intros Hk Hk'. rewrite dict_get_set_ne; [done|]. intros ->. congruence.
Qed.

(** ** [Solver.add_constraint] *)

(** The registration loop never removes or rebinds a name. *)
Lemma register_preserves (h : list object) (vs : list addr) (d d' : dict addr)
    (r : result unit) (k : string) (x : addr) :
  Solver.register h vs d = (d', r) → dict_get k d = Some x →
  dict_get k d' = Some x.
Proof.
  revert d. induction vs as [|v vs IH]; intros d; simpl.
  - by intros [= <- _].
  - destruct (h !! v) as [[op values|name dom]|]; [by intros [= <- _]| |by intros [= <- _]].
    destruct (dict_get name d) as [v'|] eqn:Hname.
    + destruct (v' =? v); [apply IH|by intros [= <- _]].
    + intros Hreg Hk. eapply IH; [done|]. by apply dict_set_fresh_preserves.
Qed.

(** A variable already registered is registered again without any change. *)
Lemma register_same (h : list object) (vs : list addr) (d : dict addr) :
  Forall (λ u, ∃ n dom, h !! u = Some (OVariable n dom) ∧ dict_get n d = Some u) vs →
  Solver.register h vs d = (d, Ok ()).
Proof.
  induction 1 as [|v vs (n & dom & Hv & Hn) _ IH]; simpl; [done|].
  by rewrite Hv, Hn, Nat.eqb_refl.
Qed.

(** The shape of a failed registration. *)
Lemma register_Raise (h : list object) (vs : list addr) (d d' : dict addr)
    (e : exn) :
  Forall (λ v, is_Variable h v = true) vs →
  Solver.register h vs d = (d', Raise e) →
  e = ValueError dup_name_msg
  ∧ ∃ pre v post name dom v',
      vs = pre ++ v :: post
      ∧ h !! v = Some (OVariable name dom)
      ∧ dict_get name d' = Some v' ∧ v' ≠ v
      ∧ Forall (λ u, ∃ n du, h !! u = Some (OVariable n du)
                             ∧ dict_get n d' = Some u) pre.
Proof.
  intros Hvs. revert d. induction Hvs as [|v vs Hv _ IH]; intros d; simpl; [done|].
  unfold is_Variable in Hv.
  destruct (h !! v) as [[op values|name dom]|] eqn:Hlook; [done| |done].
  destruct (dict_get name d) as [v'|] eqn:Hname.
  - destruct (Nat.eqb_spec v' v) as [->|Hne].
    + intros Hreg. destruct (IH _ Hreg) as (-> & pre & w & post & nw & dw & w' & -> & ? & ? & ? & ?).
      split; [done|]. exists (v :: pre), w, post, nw, dw, w'.
      split_and!; try done. constructor; [|done].
      exists name, dom. split; [done|]. by eapply register_preserves.
    + intros [= <- <-]. split; [done|].
      exists [], v, vs, name, dom, v'. by split_and!.
  - intros Hreg. destruct (IH _ Hreg) as (-> & pre & w & post & nw & dw & w' & -> & ? & ? & ? & ?).
    split; [done|]. exists (v :: pre), w, post, nw, dw, w'.
    split_and!; try done. constructor; [|done].
    exists name, dom. split; [done|].
    eapply register_preserves; [done|]. apply dict_get_set_eq.
Qed.

(** A name bound to another object makes the registration fail. *)
Lemma register_conflict (h : list object) (vs : list addr) (d : dict addr)
    (v v' : addr) (name : string) (dom : DomainRange.t) :
  Forall (λ v, is_Variable h v = true) vs →
  v ∈ vs → h !! v = Some (OVariable name dom) →
  dict_get name d = Some v' → v' ≠ v →
  ∃ d', Solver.register h vs d = (d', Raise (ValueError dup_name_msg)).
Proof.
  intros Hvs. revert d. induction Hvs as [|u vs Hu _ IH]; intros d Hin Hv Hname Hne.
  - by apply elem_of_nil in Hin.
  - simpl. unfold is_Variable in Hu.
    destruct (h !! u) as [[op values|nu du]|] eqn:Hlook; [done| |done].
    destruct (dict_get nu d) as [u'|] eqn:Hnu.
    + destruct (Nat.eqb_spec u' u) as [->|Hne']; [|by eexists].
      apply elem_of_cons in Hin as [->|Hin]; [|by apply IH].
      simplify_eq.
    + apply elem_of_cons in Hin as [->|Hin]; [simplify_eq|].
      apply IH; [done..| |done]. by eapply dict_set_fresh_preserves.
Qed.

(** What [add_constraint] does on an [Expression]. *)
Lemma add_constraint_Expr (h : list object) (s : Solver.t) (c : addr)
    (vs : list addr) :
  Expression.variables h c = Some vs →
  Solver.add_constraint h s (VExpr c)
  = Some (match Solver.register h vs (Solver._variables s) with
          | (vars, Ok _) => (Solver.mk (Solver._conststore s ++ [c]) vars, Ok ())
          | (vars, Raise e) => (Solver.mk (Solver._conststore s) vars, Raise e)
          end).
Proof.
  intros Hvs. simpl. rewrite Hvs.
  by destruct (Solver.register h vs (Solver._variables s)) as [vars [[]|e]].
Qed.

(** [None] and a numpy integer are ignored. *)
Lemma add_constraint_None_npint (h : list object) (s : Solver.t) (z : Z) :
  Solver.add_constraint h s VNone = Some (s, Ok ())
  ∧ Solver.add_constraint h s (VNpInt z) = Some (s, Ok ()).
Proof. done. Qed.

(** C3, at the input [add_constraint(z)] for a Python [int] [z] (an integer
    literal): the test [isinstance(c, np.integer)] is false for an [int], so
    the call goes on to [c.variables()] and raises an [AttributeError]
    instead of returning; the constraint list and the map are unchanged. *)
Theorem add_constraint_int_raises (h : list object) (s : Solver.t) (z : Z) :
  Solver.add_constraint h s (VInt z)
  = Some (s, Raise (AttributeError "'int' object has no attribute 'variables'")).
Proof. reflexivity. Qed.

(** A name bound to another object makes [add_constraint] fail. *)
Lemma add_constraint_conflict (h : list object) (s : Solver.t) (c : addr)
    (vs : list addr) (v v' : addr) (name : string) (dom : DomainRange.t) :
  Expression.variables h c = Some vs →
  v ∈ vs → h !! v = Some (OVariable name dom) →
  dict_get name (Solver._variables s) = Some v' → v' ≠ v →
  ∃ s', Solver.add_constraint h s (VExpr c)
        = Some (s', Raise (ValueError dup_name_msg)).
Proof.
  intros Hvs Hin Hv Hname Hne. rewrite (add_constraint_Expr _ _ _ _ Hvs).
  destruct (register_conflict h vs (Solver._variables s) v v' name dom)
    as [d' ->]; [by eapply variables_are_Variables|done..|].
  by eexists.
Qed.

(** C4.  Let [vs] be the variables of the constraint [c].  If some [v] of
    [vs] has a name that the solver maps to another object [v'], then
    [add_constraint] raises the [ValueError] "Two variables with the same
    name in the same model" (what the specification names
    DuplicateVariableNameError).  If every variable of [vs] is the object
    the solver already maps its name to, then [add_constraint] returns, the
    map is unchanged and [c] is appended to the constraints. *)
Theorem add_constraint_duplicate_name (h : list object) (s : Solver.t)
    (c : addr) (vs : list addr) :
  Expression.variables h c = Some vs →
  (∀ v v' name dom,
     v ∈ vs → h !! v = Some (OVariable name dom) →
     dict_get name (Solver._variables s) = Some v' → v' ≠ v →
     ∃ s', Solver.add_constraint h s (VExpr c)
           = Some (s', Raise (ValueError dup_name_msg)))
  ∧ (Forall (λ u, ∃ n dom, h !! u = Some (OVariable n dom)
                           ∧ dict_get n (Solver._variables s) = Some u) vs →
     Solver.add_constraint h s (VExpr c)
     = Some (Solver.mk (Solver._conststore s ++ [c]) (Solver._variables s), Ok ())).
Proof.
  intros Hvs. split.
  - intros v v' name dom. by apply add_constraint_conflict.
  - intros Hall. rewrite (add_constraint_Expr _ _ _ _ Hvs).
    by rewrite register_same.
Qed.

(** Two objects named "x": [x1] is registered, [x2 + 1] is rejected, and
    [x1 + 1] is accepted a second time. *)
Lemma add_constraint_duplicate_name_witness :
  let d := DomainRange.__init__ (Some 0%Z) (Some 2%Z) in
  let h := [OVariable "x" d; OVariable "x" d;
            OExpression (Some "+") [ORef 0; OInt 1];
            OExpression (Some "+") [ORef 1; OInt 1]] in
  let s := Solver.mk [2] [("x", 0)] in
  (∃ s', Solver.add_constraint h s (VExpr 3)
         = Some (s', Raise (ValueError dup_name_msg)))
  ∧ Solver.add_constraint h s (VExpr 2)
    = Some (Solver.mk [2; 2] [("x", 0)], Ok ()).
Proof.
  intros d h s. split.
  - apply (proj1 (add_constraint_duplicate_name h s 3 [1] eq_refl) 1 0 "x" d);
      [apply list_elem_of_singleton; reflexivity|reflexivity|reflexivity|lia].
  - apply (proj2 (add_constraint_duplicate_name h s 2 [0] eq_refl)).
    constructor; [|constructor]. exists "x", d. split; reflexivity.
Defined.

(** Two distinct objects with the same name in one constraint are rejected
    as well, whatever the solver holds. *)
Lemma add_constraint_two_objects (h : list object) (s : Solver.t) (c : addr)
    (vs : list addr) (v1 v2 : addr) (name : string) (d1 d2 : DomainRange.t) :
  Expression.variables h c = Some vs →
  v1 ∈ vs → v2 ∈ vs → v1 ≠ v2 →
  h !! v1 = Some (OVariable name d1) → h !! v2 = Some (OVariable name d2) →
  ∃ s', Solver.add_constraint h s (VExpr c)
        = Some (s', Raise (ValueError dup_name_msg)).
Proof.
  intros Hvs Hin1 Hin2 Hne H1 H2.
  destruct (dict_get name (Solver._variables s)) as [v'|] eqn:Hname.
  - destruct (decide (v' = v1)) as [->|Hne1].
    + by eapply (add_constraint_conflict h s c vs v2 v1).
    + by eapply (add_constraint_conflict h s c vs v1 v').
  - rewrite (add_constraint_Expr _ _ _ _ Hvs).
    pose proof (variables_are_Variables _ _ _ Hvs) as Hall.
    destruct (Solver.register h vs (Solver._variables s)) as [d' [[]|e]] eqn:Hreg.
    + exfalso. clear Hvs. revert Hreg Hname Hin1 Hin2.
      generalize (Solver._variables s). clear s.
      induction Hall as [|u vs Hu Hall IH]; intros d Hreg Hname Hin1 Hin2.
      { by apply elem_of_nil in Hin1. }
      simpl in Hreg. unfold is_Variable in Hu.
      destruct (h !! u) as [[op values|nu du]|] eqn:Hlook; [done| |done].
      destruct (dict_get nu d) as [u'|] eqn:Hnu.
      * destruct (Nat.eqb_spec u' u) as [->|]; [|done].
        apply elem_of_cons in Hin1 as [->|Hin1]; [simplify_eq|].
        apply elem_of_cons in Hin2 as [->|Hin2]; [simplify_eq|].
        by eapply IH.
      * apply elem_of_cons in Hin1 as [->|Hin1];
          apply elem_of_cons in Hin2 as [->|Hin2]; simplify_eq.
        -- destruct (register_conflict h vs (dict_set name u d) v2 u name d2)
             as [d'' Hd'']; [done..|apply dict_get_set_eq|done|congruence].
        -- destruct (register_conflict h vs (dict_set name u d) v1 u name d1)
             as [d'' Hd'']; [done..|apply dict_get_set_eq|done|congruence].
        -- eapply IH; [done| |done..].
           destruct (decide (nu = name)) as [->|Hnn].
           ++ exfalso.
              destruct (register_conflict h vs (dict_set name u d) v1 u name d1)
                as [d'' Hd'']; [done..|apply dict_get_set_eq| |congruence].
              intros ->. destruct (register_conflict h vs (dict_set name v1 d) v2 v1 name d2)
                as [d'' Hd'']; [done..|apply dict_get_set_eq|done|congruence].
           ++ by rewrite dict_get_set_ne.
    + destruct (register_Raise _ _ _ _ _ Hall Hreg) as [-> _]. by eexists.
Qed.

(** The loop up to the first variable whose name is taken by another
    object: the variables before it are registered, and nothing else is. *)
Lemma register_first_conflict (h : list object) (pre post : list addr)
    (v v' : addr) (name : string) (dom : DomainRange.t) (d : dict addr) :
  Forall (λ u, is_Variable h u = true) pre →
  (∀ u n du u', u ∈ pre → h !! u = Some (OVariable n du) →
                dict_get n d = Some u' → u' = u) →
  (∀ u w n du dw, u ∈ pre → w ∈ pre → h !! u = Some (OVariable n du) →
                  h !! w = Some (OVariable n dw) → w = u) →
  h !! v = Some (OVariable name dom) → v' ≠ v →
  dict_get name d = Some v'
  ∨ (v' ∈ pre ∧ ∃ dom', h !! v' = Some (OVariable name dom')) →
  ∃ d',
    Solver.register h (pre ++ v :: post) d = (d', Raise (ValueError dup_name_msg))
    ∧ Forall (λ u, ∃ n du, h !! u = Some (OVariable n du)
                           ∧ dict_get n d' = Some u) pre
    ∧ (∀ n x, dict_get n d = Some x → dict_get n d' = Some x)
    ∧ (∀ n x, dict_get n d' = Some x →
              dict_get n d = Some x
              ∨ (x ∈ pre ∧ ∃ dx, h !! x = Some (OVariable n dx))).
Proof.
  intros Hpre. revert d.
  induction Hpre as [|u pre Hu _ IH]; intros d Hmap Hpair Hv Hne Htaken.
  - destruct Htaken as [Hget|[Hin _]]; [|by apply elem_of_nil in Hin].
    exists d. simpl. rewrite Hv, Hget.
    destruct (Nat.eqb_spec v' v) as [?|_]; [done|].
    split_and!; [done|constructor|done|]. intros n x ?. by left.
  - unfold is_Variable in Hu.
    destruct (h !! u) as [[|n du]|] eqn:Hhu; try done.
    assert (∀ d1,
      (∀ k x, dict_get k d = Some x → dict_get k d1 = Some x) →
      dict_get n d1 = Some u →
      (∀ k x, dict_get k d1 = Some x → dict_get k d = Some x ∨ (k = n ∧ x = u)) →
      Solver.register h ((u :: pre) ++ v :: post) d
      = Solver.register h (pre ++ v :: post) d1 →
      ∃ d', Solver.register h ((u :: pre) ++ v :: post) d
            = (d', Raise (ValueError dup_name_msg))
        ∧ Forall (λ u0, ∃ n0 du0, h !! u0 = Some (OVariable n0 du0)
                                  ∧ dict_get n0 d' = Some u0) (u :: pre)
        ∧ (∀ k x, dict_get k d = Some x → dict_get k d' = Some x)
        ∧ (∀ k x, dict_get k d' = Some x →
                  dict_get k d = Some x
                  ∨ (x ∈ u :: pre ∧ ∃ dx, h !! x = Some (OVariable k dx)))) as Hstep.
    { intros d1 Hkeep Hu1 Hnew Hreg.
      destruct (IH d1) as (d' & Hd' & Hall & Hkeep' & Hfrom); [| |done|done| |].
      - intros w m dw w' Hw Hhw Hget.
        destruct (Hnew m w' Hget) as [Hold|[-> ->]].
        + by apply (Hmap w m dw w'); [right|..].
        + symmetry. by apply (Hpair u w n du dw); [left|right|..].
      - intros w1 w2 m d1' d2' ? ?. by apply Hpair; right.
      - destruct Htaken as [Hget|[Hin [dom' Hdom']]]; [left; by apply Hkeep|].
        apply elem_of_cons in Hin as [->|Hin]; [|right; by eauto].
        left. rewrite Hhu in Hdom'. by injection Hdom' as -> _.
      - exists d'. rewrite Hreg. split_and!; [done| |by auto|].
        + constructor; [|done]. exists n, du. split; [done|by apply Hkeep'].
        + intros k x Hk. destruct (Hfrom k x Hk) as [Hk1|[Hin Hx]].
          * destruct (Hnew k x Hk1) as [?|[-> ->]]; [by left|].
            right. split; [left|by exists du].
          * right. split; [by right|done]. }
    destruct (dict_get n d) as [u'|] eqn:Hget.
    + assert (u' = u) as -> by (by apply (Hmap u n du u'); [left|..]).
      apply (Hstep d); [done|done|by left|].
      simpl. by rewrite Hhu, Hget, Nat.eqb_refl.
    + apply (Hstep (dict_set n u d)).
      * intros k x Hk. rewrite dict_get_set_ne; [done|]. intros <-. congruence.
      * apply dict_get_set_eq.
      * intros k x Hk. destruct (decide (n = k)) as [<-|Hnk].
        -- rewrite dict_get_set_eq in Hk. injection Hk as <-. by right.
        -- rewrite dict_get_set_ne in Hk by done. by left.
      * simpl. by rewrite Hhu, Hget.
Qed.

(** C10.  Let [vs] be the variables of the constraint [c].

    First, the failure itself.  Let [v] be the first variable of [vs] whose
    name is taken by another object: the variables [pre] before [v] are
    consistent with the map and with each other, and the name of [v] is
    bound to another object in the map or carried by another variable of
    [pre].  Then [add_constraint] raises the duplicate-name [ValueError],
    the constraint list is the one before the call, and the map it leaves
    has every variable of [pre] registered: it keeps the bindings it had,
    and its other bindings are those of variables of [pre].  So when a
    variable of [pre] was not registered before, the failed call has
    changed the map.

    Second, every failure is of this kind: when [add_constraint] raises,
    the exception is the duplicate-name [ValueError], raised at some [v] of
    [vs] whose name is bound to another object; every variable of [vs]
    before [v] is registered in the map the solver is left with, and the
    constraint list is the one before the call.  When [add_constraint]
    returns, [c] has been appended. *)
Theorem add_constraint_not_atomic (h : list object) (s : Solver.t)
    (c : addr) (vs : list addr) :
  Expression.variables h c = Some vs →
  (∀ pre v post name dom v',
     vs = pre ++ v :: post →
     (∀ u n du u', u ∈ pre → h !! u = Some (OVariable n du) →
                   dict_get n (Solver._variables s) = Some u' → u' = u) →
     (∀ u w n du dw, u ∈ pre → w ∈ pre → h !! u = Some (OVariable n du) →
                     h !! w = Some (OVariable n dw) → w = u) →
     h !! v = Some (OVariable name dom) → v' ≠ v →
     dict_get name (Solver._variables s) = Some v'
     ∨ (v' ∈ pre ∧ ∃ dom', h !! v' = Some (OVariable name dom')) →
     ∃ vars',
       Solver.add_constraint h s (VExpr c)
       = Some (Solver.mk (Solver._conststore s) vars',
               Raise (ValueError dup_name_msg))
       ∧ Forall (λ u, ∃ n du, h !! u = Some (OVariable n du)
                              ∧ dict_get n vars' = Some u) pre
       ∧ (∀ n x, dict_get n (Solver._variables s) = Some x →
                 dict_get n vars' = Some x)
       ∧ (∀ n x, dict_get n vars' = Some x →
                 dict_get n (Solver._variables s) = Some x
                 ∨ (x ∈ pre ∧ ∃ dx, h !! x = Some (OVariable n dx)))
       ∧ ((∃ u n du, u ∈ pre ∧ h !! u = Some (OVariable n du)
                     ∧ dict_get n (Solver._variables s) = None) →
          vars' ≠ Solver._variables s))
  ∧ (∀ s' r,
       Solver.add_constraint h s (VExpr c) = Some (s', r) →
       match r with
       | Ok _ => Solver._conststore s' = Solver._conststore s ++ [c]
       | Raise e =>
           e = ValueError dup_name_msg
           ∧ Solver._conststore s' = Solver._conststore s
           ∧ ∃ pre v post name dom v',
               vs = pre ++ v :: post
               ∧ h !! v = Some (OVariable name dom)
               ∧ dict_get name (Solver._variables s') = Some v' ∧ v' ≠ v
               ∧ Forall (λ u, ∃ n du, h !! u = Some (OVariable n du)
                                      ∧ dict_get n (Solver._variables s') = Some u) pre
       end).
Proof.
  intros Hvs. rewrite (add_constraint_Expr _ _ _ _ Hvs).
  pose proof (variables_are_Variables _ _ _ Hvs) as Hall. split.
  - intros pre v post name dom v' -> Hmap Hpair Hv Hne Htaken.
    apply Forall_app in Hall as [Hpre _].
    destruct (register_first_conflict h pre post v v' name dom (Solver._variables s)
                Hpre Hmap Hpair Hv Hne Htaken) as (d' & -> & Hreg & Hkeep & Hfrom).
    exists d'. split_and!; [done..|].
    intros (u & n & du & Hu & Hhu & Hnone) Heq. rewrite Heq in Hreg.
    rewrite Forall_forall in Hreg.
    destruct (Hreg u Hu) as (n' & du' & Hhu' & Hget). congruence.
  - intros s' r.
    destruct (Solver.register h vs (Solver._variables s)) as [d' [[]|e]] eqn:Hreg.
    + by intros [= <- <-].
    + intros [= <- <-]. simpl.
      destruct (register_Raise _ _ _ _ _ Hall Hreg) as [-> Hshape].
      by split_and!.
Qed.

(** The solver knows [y0] under the name "y"; registering [x + y1], where
    [y1] is another object named "y", fails at [y1] and leaves [x]
    registered: the failed call has changed the map. *)
Lemma add_constraint_not_atomic_witness :
  let d := DomainRange.__init__ (Some 0%Z) (Some 2%Z) in
  let h := [OVariable "y" d; OVariable "x" d; OVariable "y" d;
            OExpression (Some "+") [ORef 1; ORef 2]] in
  let s := Solver.mk [0] [("y", 0)] in
  ∃ vars',
    Solver.add_constraint h s (VExpr 3)
    = Some (Solver.mk (Solver._conststore s) vars', Raise (ValueError dup_name_msg))
    ∧ Forall (λ u, ∃ n du, h !! u = Some (OVariable n du)
                           ∧ dict_get n vars' = Some u) [1]
    ∧ (∀ n x, dict_get n (Solver._variables s) = Some x → dict_get n vars' = Some x)
    ∧ (∀ n x, dict_get n vars' = Some x →
              dict_get n (Solver._variables s) = Some x
              ∨ (x ∈ [1] ∧ ∃ dx, h !! x = Some (OVariable n dx)))
    ∧ ((∃ u n du, u ∈ [1] ∧ h !! u = Some (OVariable n du)
                  ∧ dict_get n (Solver._variables s) = None) →
       vars' ≠ Solver._variables s).
Proof.
  intros d h s.
  apply (proj1 (add_constraint_not_atomic h s 3 [1; 2] eq_refl) [1] 2 [] "y" d 0).
  - reflexivity.
  - intros u n du u' ->%list_elem_of_singleton [= <- <-]. discriminate.
  - by intros u w n du dw ->%list_elem_of_singleton ->%list_elem_of_singleton.
  - reflexivity.
  - discriminate.
  - left. reflexivity.
Defined.

(** On this input the failed call has changed the map. *)
Example add_constraint_partial_registration :
  let d := DomainRange.__init__ (Some 0%Z) (Some 2%Z) in
  let h := [OVariable "y" d; OVariable "x" d; OVariable "y" d;
            OExpression (Some "+") [ORef 1; ORef 2]] in
  Solver.add_constraint h (Solver.mk [0] [("y", 0)]) (VExpr 3)
  = Some (Solver.mk [0] [("y", 0); ("x", 1)], Raise (ValueError dup_name_msg)).
Proof. reflexivity. Qed.

(** ** Names *)

Lemma Variable_init_named (d : domain_arg) (n : string) (st : state) :
  Variable_.__init__ d (Some n) st
  = match Variable_.convert_domain d with
    | Ok dom => (mkState (heap st ++ [OVariable n dom]) (_varidx st),
                 Ok (length (heap st)))
    | Raise e => (st, Raise e)
    end.
Proof.
  unfold Variable_.__init__, bind, lift, ret.
  by destruct (Variable_.convert_domain d).
Qed.

Lemma Variable_init_auto (d : domain_arg) (st : state) :
  Variable_.__init__ d None st
  = match Variable_.convert_domain d with
    | Ok dom =>
        (mkState (heap st ++ [OVariable ("var_" +:+ pretty (_varidx st)) dom])
           (S (_varidx st)), Ok (length (heap st)))
    | Raise e => (mkState (heap st) (S (_varidx st)), Raise e)
    end.
Proof.
  unfold Variable_.__init__, bind, lift, Variable_.new_name.
  by destruct (Variable_.convert_domain d).
Qed.

(** The elements of a container, built one after the other. *)
Lemma new_elements (d : domain_arg) (dom : DomainRange.t) (f : nat → string)
    (l : list nat) (st : state) :
  Variable_.convert_domain d = Ok dom →
  mapM_ (λ i, Variable_.__init__ d (Some (f i))) l st
  = (mkState (heap st ++ ((λ i, OVariable (f i) dom) <$> l)) (_varidx st),
     Ok (seq (length (heap st)) (length l))).
Proof.
  intros Hd. revert st. induction l as [|i l IH]; intros st; simpl.
  - unfold ret. rewrite app_nil_r. by destruct st.
  - unfold bind at 1. rewrite Variable_init_named, Hd.
    unfold bind at 1. rewrite IH. simpl.
    by rewrite length_app, Nat.add_1_r, <-app_assoc.
Qed.

Lemma new_elements_fail (d : domain_arg) (e : exn) (f : nat → string)
    (i : nat) (l : list nat) (st : state) :
  Variable_.convert_domain d = Raise e →
  mapM_ (λ i, Variable_.__init__ d (Some (f i))) (i :: l) st = (st, Raise e).
Proof.
  intros Hd. simpl. unfold bind at 1. by rewrite Variable_init_named, Hd.
Qed.

Lemma Variables_new_spec (shape : list nat) (d : domain_arg)
    (dom : DomainRange.t) (name_prefix : option string) (st : state) :
  Variable_.convert_domain d = Ok dom →
  let prefix := default ("var_" +:+ pretty (_varidx st)) name_prefix in
  Variables.__new__ shape d name_prefix st
  = (mkState (heap st ++ ((λ i, OVariable (prefix +:+ "_" +:+ pretty i) dom)
                            <$> seq 0 (size shape)))
       (match name_prefix with Some _ => _varidx st | None => S (_varidx st) end),
     Ok (VArray true shape (VExpr <$> seq (length (heap st)) (size shape)))).
Proof.
  intros Hd prefix. unfold Variables.__new__.
  destruct name_prefix as [p|]; simpl in prefix; subst prefix.
  - unfold bind at 1. simpl. unfold bind.
    rewrite (new_elements d dom (λ i, p +:+ "_" +:+ pretty i)) by done.
    by rewrite length_seq.
  - unfold bind at 1. unfold Variable_.new_name at 1. unfold bind.
    rewrite (new_elements d dom
               (λ i, ("var_" +:+ pretty (_varidx st)) +:+ "_" +:+ pretty i)) by done.
    by rewrite length_seq.
Qed.

(** The decimal rendering of a number only has digits. *)
Lemma pretty_N_char_digit (x : N) : is_digit (pretty_N_char x) = true.
Proof. unfold pretty_N_char. by repeat case_match. Qed.

Lemma pretty_N_go_digits (x : N) (s : string) :
  digits s = true → digits (pretty_N_go x s) = true.
Proof.
  revert s. induction (N.lt_wf_0 x) as [x _ IH]; intros s Hs.
  destruct (decide (x = 0)%N) as [->|Hx]; [by rewrite pretty_N_go_0|].
  rewrite pretty_N_go_step by lia. apply IH.
  - apply N.div_lt; lia.
  - simpl. by rewrite pretty_N_char_digit.
Qed.

Lemma pretty_nat_digits (n : nat) : digits (pretty n) = true.
Proof.
  unfold pretty, pretty_nat, pretty, pretty_N.
  case_decide; [done|]. by apply pretty_N_go_digits.
Qed.

Lemma digits_underscore_inj (s1 s2 t1 t2 : string) :
  digits s1 = true → digits s2 = true →
  s1 +:+ String "_" t1 = s2 +:+ String "_" t2 → s1 = s2 ∧ t1 = t2.
Proof.
  revert s2. induction s1 as [|c1 s1 IH]; intros [|c2 s2]; simpl.
  - by intros _ _ [= ->].
  - intros _ Hd [= <- _]. done.
  - intros Hd _ [= -> _]. done.
  - intros [_ H1]%andb_prop [_ H2]%andb_prop [= -> Heq].
    by destruct (IH s2 H1 H2 Heq) as [-> ->].
Qed.

Lemma digits_no_underscore (s1 s2 t : string) :
  digits s1 = true → s1 ≠ s2 +:+ String "_" t.
Proof.
  revert s1. induction s2 as [|c2 s2 IH]; intros s1 Hd ->; simpl in Hd.
  - done.
  - apply andb_prop in Hd as [_ Hd]. by eapply IH.
Qed.

Global Instance render_inj : Inj (=) (=) render.
Proof.
  intros [k [i|]] [k' [i'|]]; unfold render; simpl; intros [= Heq].
  - apply digits_underscore_inj in Heq as [Hk Hi]; [|apply pretty_nat_digits..].
    apply pretty_nat_inj in Hk. apply pretty_nat_inj in Hi. by subst.
  - by apply symmetry, digits_no_underscore in Heq; [|apply pretty_nat_digits].
  - by apply digits_no_underscore in Heq; [|apply pretty_nat_digits].
  - apply pretty_nat_inj in Heq. by subst.
Qed.

Lemma names_of_seq (h' h : list object) (l : list nat) (f : nat → string)
    (dom : DomainRange.t) :
  h ++ ((λ i, OVariable (f i) dom) <$> l) `prefix_of` h' →
  names_of h' (VExpr <$> seq (length h) (length l)) = f <$> l.
Proof.
  revert h. induction l as [|i l IH]; intros h Hpre; [done|].
  simpl. unfold names_of. simpl.
  assert (h' !! length h = Some (OVariable (f i) dom)) as ->.
  { eapply prefix_lookup_Some; [|done].
    by rewrite lookup_app_r, Nat.sub_diag. }
  f_equal. specialize (IH (h ++ [OVariable (f i) dom])).
  rewrite length_app, Nat.add_1_r, <-app_assoc in IH. by apply IH.
Qed.

Local Ltac no_keys :=
  exists []; split_and!; [done|apply Forall_nil_2|apply NoDup_nil_2|done].

(** What a construction draws from the generator.  [ks] lists the counter
    values (with the position in the container) the names are rendered
    from. *)
Lemma construct_spec (c : construction) (st st1 : state) (r : result value) :
  construct c st = (st1, r) →
  heap st `prefix_of` heap st1
  ∧ _varidx st ≤ _varidx st1
  ∧ ∃ ks, (∀ h', heap st1 `prefix_of` h' → generated h' c r = render <$> ks)
          ∧ Forall (λ key, key.1 = _varidx st) ks
          ∧ NoDup ks
          ∧ (ks ≠ [] → _varidx st < _varidx st1).
Proof.
  destruct c as [d [n|]|shape d [p|]|]; simpl; unfold fmapM, bind.
  - rewrite Variable_init_named.
    destruct (Variable_.convert_domain d) as [dom|e]; intros [= <- <-]; simpl;
      (split_and!; [first [done|by apply prefix_app_r]|done|no_keys]).
  - rewrite Variable_init_auto.
    destruct (Variable_.convert_domain d) as [dom|e]; intros [= <- <-]; simpl.
    + split_and!; [by apply prefix_app_r|lia|].
      exists [(_varidx st, None)]. split_and!.
      * intros h' Hpre. unfold names_of. simpl.
        assert (h' !! length (heap st)
                = Some (OVariable ("var_" +:+ pretty (_varidx st)) dom)) as ->; [|done].
        eapply prefix_lookup_Some; [|done].
        by rewrite lookup_app_r, Nat.sub_diag.
      * by repeat constructor.
      * apply NoDup_singleton.
      * lia.
    + split_and!; [done|lia|]. no_keys.
  - destruct (Variable_.convert_domain d) as [dom|e] eqn:Hd.
    + rewrite (Variables_new_spec shape d dom (Some p) st Hd). intros [= <- <-]; simpl.
      split_and!; [by apply prefix_app_r|done|no_keys].
    + unfold Variables.__new__, bind, ret.
      destruct (seq 0 (size shape)) as [|i l] eqn:Hseq.
      * simpl. intros [= <- <-].
        split_and!; [done..|no_keys].
      * rewrite (new_elements_fail d e (λ i, p +:+ "_" +:+ pretty i)) by done.
        intros [= <- <-].
        split_and!; [done..|no_keys].
  - destruct (Variable_.convert_domain d) as [dom|e] eqn:Hd.
    + rewrite (Variables_new_spec shape d dom None st Hd). intros [= <- <-]; simpl.
      split_and!; [by apply prefix_app_r|lia|].
      exists ((λ i, (_varidx st, Some i)) <$> seq 0 (size shape)). split_and!.
      * intros h' Hpre.
        pose proof (names_of_seq h' (heap st) (seq 0 (size shape))
                      (λ i, ("var_" +:+ pretty (_varidx st)) +:+ "_" +:+ pretty i)
                      dom Hpre) as Hnames.
        rewrite length_seq in Hnames. rewrite Hnames.
        by rewrite <-list_fmap_compose.
      * apply Forall_fmap, Forall_forall. by intros.
      * apply NoDup_fmap_2; [by intros i j [= ->]|apply NoDup_seq].
      * lia.
    + unfold Variables.__new__, bind, ret, Variable_.new_name.
      destruct (seq 0 (size shape)) as [|i l] eqn:Hseq.
      * simpl. intros [= <- <-]. simpl.
        split_and!; [done|lia|no_keys].
      * rewrite (new_elements_fail d e
                   (λ i, ("var_" +:+ pretty (_varidx st)) +:+ "_" +:+ pretty i)) by done.
        intros [= <- <-]. simpl.
        split_and!; [done|lia|no_keys].
  - unfold Variable_.new_name, ret. intros [= <- <-]. simpl.
    split_and!; [done|lia|].
    exists [(_varidx st, None)]. split_and!; [done|by repeat constructor|apply NoDup_singleton|lia].
Qed.

Lemma run_spec (cs : list construction) (st : state) :
  heap st `prefix_of` heap (run cs st).1
  ∧ _varidx st ≤ _varidx (run cs st).1
  ∧ ∃ ks, (∀ h', heap (run cs st).1 `prefix_of` h' →
                 auto_names h' (run cs st).2 = render <$> ks)
          ∧ Forall (λ key, _varidx st ≤ key.1) ks
          ∧ NoDup ks.
Proof.
  revert st. induction cs as [|c cs IH]; intros st; simpl.
  - split_and!; [done..|].
    exists []. split_and!; [done|apply Forall_nil_2|apply NoDup_nil_2].
  - destruct (construct c st) as [st1 r] eqn:Hc.
    destruct (construct_spec _ _ _ _ Hc) as (Hh & Hidx & ks1 & Hgen & Hks1 & Hnd1 & Hlt).
    destruct (IH st1) as (Hh' & Hidx' & ks2 & Hauto & Hks2 & Hnd2).
    destruct (run cs st1) as [st' rs]. simpl in *.
    split_and!; [by etrans|lia|].
    exists (ks1 ++ ks2). split_and!.
    + intros h' Hpre. unfold auto_names in *.
      rewrite fmap_app, Hgen, Hauto; [done..|by etrans].
    + apply Forall_app. split.
      * eapply Forall_impl; [done|]. simpl. lia.
      * eapply Forall_impl; [done|]. simpl. lia.
    + apply NoDup_app. split_and!; [done| |done].
      intros key Hin1 Hin2.
      assert (ks1 ≠ []) as Hne by (intros ->; by apply elem_of_nil in Hin1).
      specialize (Hlt Hne).
      rewrite Forall_forall in Hks1, Hks2.
      specialize (Hks1 _ Hin1). specialize (Hks2 _ Hin2). simpl in *. lia.
Qed.

(** C8.  Each call of [Variable.new_name] returns "var_" followed by the
    decimal value of the counter [Variable._varidx] and increments the
    counter.  Over any sequence of constructions ([Variable] with or without
    a name, [Variables] with or without a prefix, direct calls of the
    generator), started in any state, the names drawn from the generator
    (the names of the variables built without a name, the names of the
    elements of the containers built without a prefix, and the names the
    direct calls return) are pairwise distinct. *)
Theorem auto_names_distinct (cs : list construction) (st : state) :
  Variable_.new_name st
  = (mkState (heap st) (S (_varidx st)), Ok ("var_" +:+ pretty (_varidx st)))
  ∧ NoDup (auto_names (heap (run cs st).1) (run cs st).2).
Proof.
  split; [done|].
  destruct (run_spec cs st) as (_ & _ & ks & Hauto & _ & Hnd).
  rewrite Hauto by done. by apply NoDup_fmap_2; [apply _|].
Qed.

Example auto_names_example :
  let cs := [NewVariable DomNone None; NewVariable DomNone (Some "x");
             NewVariables [2] DomNone None; NewVariable (DomRange 0 9 3) None;
             NewName; NewVariable DomNone None] in
  auto_names (heap (run cs (mkState [] 0)).1) (run cs (mkState [] 0)).2
  = ["var_0"; "var_1_0"; "var_1_1"; "var_3"; "var_4"].
Proof. vm_compute. reflexivity. Qed.

(** ** Lowering *)

Lemma denotes_TVar (h : list object) (c : operand) (name : string)
    (low : option Z) (up : Z) :
  denotes h c (TVar name low up) = true →
  ∃ a, c = ORef a
       ∧ h !! a = Some (OVariable name (DomainRange.__init__ low (Some up))).
Proof.
  destruct c as [| | |a]; simpl; try done.
  repeat case_match; try done.
  rewrite !andb_true_iff, !bool_decide_eq_true. intros [[-> ->] ->]. by exists a.
Qed.

Lemma denotes_TAdd (h : list object) (c : operand) (l r : tree) :
  denotes h c (TAdd l r) = true →
  ∃ a cl cr, c = ORef a
             ∧ h !! a = Some (OExpression (Some "+") [cl; cr])
             ∧ denotes h cl l = true ∧ denotes h cr r = true.
Proof.
  destruct c as [| | |a]; simpl; try done.
  repeat case_match; try done.
  rewrite !andb_true_iff, !bool_decide_eq_true. intros [[-> ?] ?].
  by eexists _, _, _.
Qed.

Lemma denotes_TEq (h : list object) (c : operand) (l r : tree) :
  denotes h c (TEq l r) = true →
  ∃ a cl cr, c = ORef a
             ∧ h !! a = Some (OExpression (Some "=") [cl; cr])
             ∧ denotes h cl l = true ∧ denotes h cr r = true.
Proof.
  destruct c as [| | |a]; simpl; try done.
  repeat case_match; try done.
  rewrite !andb_true_iff, !bool_decide_eq_true. intros [[-> ?] ?].
  by eexists _, _, _.
Qed.

Lemma wf_object_fuel (h : list object) (a : addr) (op : option string)
    (values : list operand) (c : operand) :
  heap_wf h = true → h !! a = Some (OExpression op values) → c ∈ values →
  fuel_of c ≤ a.
Proof.
  intros Hwf Ha Hc. destruct c as [| | |b]; simpl; try lia.
  pose proof (wf_object_ref _ _ _ _ (heap_wf_lookup _ _ _ Hwf Ha) Hc). lia.
Qed.

(** On a well-formed heap a tree is not deeper than the fuel of its root. *)
Lemma denotes_depth (h : list object) (c : operand) (t : tree) :
  heap_wf h = true → denotes h c t = true → depth t ≤ fuel_of c.
Proof.
  intros Hwf. revert c.
  induction t as [b|z|z|name low up|l IHl r IHr|l IHr r IHl]; intros c Hd.
  1-3: simpl; lia.
  - apply denotes_TVar in Hd as (a & -> & _). simpl. lia.
  - apply denotes_TAdd in Hd as (a & cl & cr & -> & Ha & Hl & Hr).
    apply IHl in Hl. apply IHr in Hr.
    pose proof (wf_object_fuel h a _ _ cl Hwf Ha ltac:(set_solver)).
    pose proof (wf_object_fuel h a _ _ cr Hwf Ha ltac:(set_solver)).
    simpl. lia.
  - apply denotes_TEq in Hd as (a & cl & cr & -> & Ha & Hl & Hr).
    apply IHr in Hl. apply IHl in Hr.
    pose proof (wf_object_fuel h a _ _ cl Hwf Ha ltac:(set_solver)).
    pose proof (wf_object_fuel h a _ _ cr Hwf Ha ltac:(set_solver)).
    simpl. lia.
Qed.

Section Lowering.

Variable lpobj : Type.
Variable LpVariable : string → option Z → Z → lpobj.
Variable lp_add : lowered lpobj → lowered lpobj → result (lowered lpobj).
Variable lp_eq : lowered lpobj → lowered lpobj → result (lowered lpobj).

Local Abbreviation convert_fuel :=
  (SolverPulp.convert_fuel lpobj LpVariable lp_add lp_eq).
Local Abbreviation lower_spec :=
  (SolverPulp.lower_spec lpobj LpVariable lp_add lp_eq).

(** With enough fuel the code computes the lowering of the
    specification. *)
Lemma convert_fuel_lower_spec (h : list object) (t : tree) (c : operand)
    (fuel : nat) (lps : gmap string lpobj) :
  denotes h c t = true → depth t ≤ fuel →
  convert_fuel fuel h c lps = Some (lower_spec t lps).
Proof.
  revert c fuel lps.
  induction t as [b|z|z|name low up|l IHl r IHr|l IHl r IHr]; intros c fuel lps Hd Hfuel.
  1-3: destruct c; simpl in Hd; try done; apply bool_decide_eq_true in Hd as ->;
       by destruct fuel.
  - apply denotes_TVar in Hd as (a & -> & Ha).
    destruct fuel as [|fuel]; [simpl in Hfuel; lia|]. simpl. rewrite Ha.
    unfold SolverPulp.bindL, SolverPulp._add_lpvar. rewrite Ha. simpl.
    by destruct (lps !! name).
  - apply denotes_TAdd in Hd as (a & cl & cr & -> & Ha & Hl & Hr).
    destruct fuel as [|fuel]; [simpl in Hfuel; lia|]. simpl in Hfuel.
    simpl. rewrite Ha. simpl. unfold SolverPulp.bindL at 1 2.
    rewrite (IHl cl fuel lps Hl) by lia.
    destruct (lower_spec l lps) as [lps1 [x|e]]; [|done].
    unfold SolverPulp.bindL at 1 2.
    rewrite (IHr cr fuel lps1 Hr) by lia.
    by destruct (lower_spec r lps1) as [lps2 [y|e]].
  - apply denotes_TEq in Hd as (a & cl & cr & -> & Ha & Hl & Hr).
    destruct fuel as [|fuel]; [simpl in Hfuel; lia|]. simpl in Hfuel.
    simpl. rewrite Ha. simpl. unfold SolverPulp.bindL at 1 2.
    rewrite (IHl cl fuel lps Hl) by lia.
    destruct (lower_spec l lps) as [lps1 [x|e]]; [|done].
    unfold SolverPulp.bindL at 1 2.
    rewrite (IHr cr fuel lps1 Hr) by lia.
    by destruct (lower_spec r lps1) as [lps2 [y|e]].
Qed.

(** C9.  On a heap built by the constructors, when the operand [c] is the
    root of a constraint tree [t] (integer literals, variables whose upper
    bound is set, "+" and "=" nodes), [_convert_constraint] returns, and
    returns the lowering of the specification: an integer literal lowers to
    itself; a variable lowers to the backend variable memoized under its
    name, created with the inclusive bounds [domain.min] and
    [domain.max - 1]; a "+" node lowers to the backend's sum of its two
    lowered operands and a "=" node to the backend's equality of them. *)
Theorem convert_constraint_lower_spec (h : list object) (c : operand) (t : tree)
    (lps : gmap string lpobj) :
  heap_wf h = true → denotes h c t = true →
  SolverPulp._convert_constraint lpobj LpVariable lp_add lp_eq h c lps
  = Some (lower_spec t lps).
Proof.
  intros Hwf Hd. apply convert_fuel_lower_spec; [done|].
  by apply (denotes_depth h).
Qed.

(** A variable whose upper bound is unset cannot be lowered: [max - 1]
    raises a [TypeError] (unless a backend variable is already memoized
    under its name). *)
Lemma add_lpvar_unbounded (h : list object) (v : addr) (name : string)
    (low : option Z) (lps : gmap string lpobj) :
  h !! v = Some (OVariable name (DomainRange.__init__ low None)) →
  lps !! name = None →
  SolverPulp._add_lpvar lpobj LpVariable h v lps
  = Some (lps, Raise (TypeError sub_None_msg)).
Proof. intros Hv Hn. unfold SolverPulp._add_lpvar. by rewrite Hv, Hn. Qed.

(** The memo: a second lowering of a variable returns the object made by
    the first and leaves the map as it is. *)
Lemma add_lpvar_memoized (h : list object) (v : addr)
    (lps lps' : gmap string lpobj) (lv : lpobj) :
  SolverPulp._add_lpvar lpobj LpVariable h v lps = Some (lps', Ok lv) →
  SolverPulp._add_lpvar lpobj LpVariable h v lps' = Some (lps', Ok lv).
Proof.
  unfold SolverPulp._add_lpvar.
  destruct (h !! v) as [[op values|name dom]|]; [done| |done].
  destruct (lps !! name) as [lv'|] eqn:Hn.
  - intros [= <- <-]. by rewrite Hn.
  - destruct (DomainRange.max dom); [|done].
    intros [= <- <-]. by rewrite lookup_insert_eq.
Qed.

End Lowering.

(** [a + b == c] with the three domains [range(0, 2)], lowered on the
    symbolic backend. *)
Lemma convert_constraint_lower_spec_witness :
  let d := DomainRange.__init__ (Some 0%Z) (Some 2%Z) in
  let h := [OVariable "a" d; OVariable "b" d; OVariable "c" d;
            OExpression (Some "+") [ORef 0; ORef 1];
            OExpression (Some "=") [ORef 2; ORef 3]] in
  let t := TEq (TVar "c" (Some 0%Z) 2) (TAdd (TVar "a" (Some 0%Z) 2) (TVar "b" (Some 0%Z) 2)) in
  SolverPulp._convert_constraint sym SymVariable sym_add sym_eq h (ORef 4) ∅
  = Some (SolverPulp.lower_spec sym SymVariable sym_add sym_eq t ∅).
Proof.
  intros d h t.
  apply (convert_constraint_lower_spec sym SymVariable sym_add sym_eq h (ORef 4) t ∅);
    reflexivity.
Defined.

Example lower_example :
  let t := TEq (TVar "c" (Some 0%Z) 2) (TAdd (TVar "a" (Some 0%Z) 2) (TVar "c" (Some 0%Z) 2)) in
  (SolverPulp.lower_spec sym SymVariable sym_add sym_eq t ∅).2
  = Ok (LObj (SymEq (LObj (SymVariable "c" (Some 0%Z) 1))
                    (LObj (SymAdd (LObj (SymVariable "a" (Some 0%Z) 1))
                                  (LObj (SymVariable "c" (Some 0%Z) 1)))))).
Proof. vm_compute. reflexivity. Qed.

(** ** The [Variables] container *)

(** Broadcasting a 2 x 2 array against a Python integer that fits a 64-bit
    integer pairs each element with the numpy integer. *)
Lemma broadcast_2x2_scalar (a b c d : value) (z : Z) :
  is_np_integer z = true →
  broadcast (VArray false [2; 2] [a; b; c; d]) (VInt z)
  = Ok ([2; 2], [(a, VNpInt z); (b, VNpInt z); (c, VNpInt z); (d, VNpInt z)]).
Proof. intros Hz. unfold broadcast. cbn [as_array]. rewrite Hz. reflexivity. Qed.

(** Comparing expressions with a numpy integer, one after the other. *)
Lemma eq_items (host_eq : value → value → M value) (z : Z) (l : list addr)
    (st : state) :
  mapM_ (λ ab, py_eq host_eq ab.1 ab.2) ((λ a, (VExpr a, VNpInt z)) <$> l) st
  = (mkState (heap st ++ ((λ a, OExpression (Some "=") [ORef a; ONpInt z]) <$> l))
       (_varidx st),
     Ok (VExpr <$> seq (length (heap st)) (length l))).
Proof.
  revert st. induction l as [|a l IH]; intros st; simpl.
  - unfold ret. rewrite app_nil_r. by destruct st.
  - unfold bind at 1. simpl. unfold bind at 1. rewrite IH. simpl.
    by rewrite length_app, Nat.add_1_r, <-app_assoc.
Qed.

Lemma str_eq_node (h : list object) (a v : addr) (z : Z) (name : string)
    (dom : DomainRange.t) :
  h !! a = Some (OExpression (Some "=") [ORef v; ONpInt z]) →
  h !! v = Some (OVariable name dom) →
  v < a →
  Expression.__str__ h a = Some (Ok (name +:+ " = " +:+ pretty z)).
Proof.
  intros Ha Hv Hlt. unfold Expression.__str__. simpl. rewrite Ha.
  destruct a as [|a]; [lia|]. simpl. by rewrite Hv.
Qed.

Lemma lookup_app_add {A} (h l : list A) (k : nat) :
  (h ++ l) !! (length h + k) = l !! k.
Proof. rewrite lookup_app_r by lia. f_equal. lia. Qed.

Local Ltac heap_lookup :=
  rewrite <-?Nat.add_assoc, lookup_app_add; rewrite ?Nat.add_0_r; reflexivity.

(** C2.  Let [v = Variables((2, 2))] be built in any state, with or without
    a name prefix, and with the default unbounded domain.  Then [v == 0]
    returns a container of shape (2, 2) whose four elements are references
    to new [Expression] nodes (not booleans); the [i]-th node has op "=" and
    holds the [i]-th variable of [v] and the numpy integer 0, and [str]
    renders it as the name of that variable followed by " = 0". *)
Theorem Variables_eq_zero (host_eq : value → value → M value)
    (ndarray__array_ufunc__ :
       ufunc → string → list value → option (list value) → M value)
    (ndarray__array_ufunc__tuple :
       ufunc → string → list value → option (list value) → M (option (list value)))
    (st : state) (name_prefix : option string) :
  let prefix := default ("var_" +:+ pretty (_varidx st)) name_prefix in
  let n := length (heap st) in
  let unbounded := DomainRange.__init__ None None in
  let v := VArray true [2; 2] (VExpr <$> [n; n + 1; n + 2; n + 3]) in
  ∃ st1 st2,
    Variables.__new__ [2; 2] DomNone name_prefix st = (st1, Ok v)
    ∧ Variables.array_eq host_eq ndarray__array_ufunc__
        ndarray__array_ufunc__tuple v (VInt 0) st1
      = (st2, Ok (One (VArray true [2; 2] (VExpr <$> [n + 4; n + 5; n + 6; n + 7]))))
    ∧ Forall (λ i,
        heap st2 !! (n + i)
        = Some (OVariable (prefix +:+ "_" +:+ pretty i) unbounded)
        ∧ heap st2 !! (n + 4 + i)
          = Some (OExpression (Some "=") [ORef (n + i); ONpInt 0])
        ∧ Expression.__str__ (heap st2) (n + 4 + i)
          = Some (Ok ((prefix +:+ "_" +:+ pretty i) +:+ " = 0"))) (seq 0 4).
Proof.
  intros prefix n unbounded v. subst v.
  rewrite (Variables_new_spec [2; 2] DomNone unbounded name_prefix st eq_refl).
  fold prefix. fold n. eexists _, _. split.
  { simpl. rewrite !Nat.add_1_r. repeat f_equal; lia. }
  unfold Variables.array_eq, Variables.__array_ufunc__, try_except,
    Variables._call_ufunc.
  change (ufunc_eqb np_equal np_equal && String.eqb "__call__" "__call__") with true.
  change (nout np_equal =? 1) with true.
  cbn match.
  cbn [fmap list_fmap Variables.is_Variables_instance Variables.view as_array].
  unfold bind at 1. unfold bind at 1. unfold lift.
  rewrite broadcast_2x2_scalar by reflexivity. cbn [fst snd].
  unfold bind at 1.
  pose proof (eq_items host_eq 0 [n; n + 1; n + 2; n + 3]) as Hitems.
  cbn [fmap list_fmap] in Hitems. rewrite Hitems. clear Hitems.
  cbn -[pretty "+:+" Expression.__str__].
  rewrite length_app. cbn -[pretty "+:+" Expression.__str__]. fold n.
  split.
  { f_equal. do 3 f_equal. repeat f_equal; lia. }
  rewrite <-app_assoc. cbn [app heap]. subst n.
  repeat constructor.
  all: try heap_lookup.
  all: match goal with
       | |- Expression.__str__ _ (_ + 4 + ?i) = _ =>
           eapply (str_eq_node _ _ (length (heap st) + i) 0 _ unbounded);
           [heap_lookup|heap_lookup|lia]
       end.
Qed.

(** On the empty heap, with the counter at 0. *)
Example Variables_eq_zero_run :
  let host_eq (a b : value) : M value := raise (TypeError "host") in
  let dispatch (u : ufunc) (m : string) (i : list value) (o : option (list value))
    : M value := ret VNotImplemented in
  let dispatch_tuple (u : ufunc) (m : string) (i : list value) (o : option (list value))
    : M (option (list value)) := ret None in
  let run := (let* v := Variables.__new__ [2; 2] DomNone None in
              Variables.array_eq host_eq dispatch dispatch_tuple v (VInt 0)) (mkState [] 0) in
  run.2 = Ok (One (VArray true [2; 2] [VExpr 4; VExpr 5; VExpr 6; VExpr 7]))
  ∧ (λ a, Expression.__str__ (heap run.1) a) <$> [4; 5; 6; 7]
    = (λ s, Some (Ok s)) <$> ["var_0_0 = 0"; "var_0_1 = 0"; "var_0_2 = 0"; "var_0_3 = 0"].
Proof. vm_compute. done. Qed.

(** ** [solve] on the symbolic backend *)

(** [a + b == c] with the three domains [range(0, 2)]: the variables are
    lowered first, in the order of their registration, then the constraint;
    the backend gets the upper bound 1. *)
Example solve_lowering_example :
  let d := DomainRange.__init__ (Some 0%Z) (Some 2%Z) in
  let h := [OVariable "a" d; OVariable "b" d; OVariable "c" d;
            OExpression (Some "+") [ORef 0; ORef 1];
            OExpression (Some "=") [ORef 2; ORef 3]] in
  let lower s := SolverPulp.solve_lowering sym SymVariable sym_add sym_eq h s None in
  let var name := LObj (SymVariable name (Some 0%Z) 1) in
  ∃ s, Solver.add_constraint h Solver.__init__ (VExpr 4) = Some (s, Ok ())
       ∧ Solver._variables s = [("c", 2); ("a", 0); ("b", 1)]
       ∧ snd <$> lower s
         = Some (Ok [LObj (SymEq (var "c") (LObj (SymAdd (var "a") (var "b"))))]).
Proof. eexists. split_and!; [reflexivity|reflexivity|]. vm_compute. reflexivity. Qed.

(** With the default domain of [Variable()] the upper bound is unset and
    [solve] raises when it creates the first backend variable. *)
Example solve_lowering_unbounded :
  let d := DomainRange.__init__ None None in
  let h := [OVariable "a" d; OVariable "b" d;
            OExpression (Some "=") [ORef 0; ORef 1]] in
  snd <$> SolverPulp.solve_lowering sym SymVariable sym_add sym_eq h
            (Solver.mk [2] [("a", 0); ("b", 1)]) None
  = Some (Raise (TypeError sub_None_msg)).
Proof. vm_compute. reflexivity. Qed.

(** * More properties of the code *)

(** ** The solver's store *)

(** Induction on a value and on the elements of an array. *)
Lemma value_ind_nested (P : value → Prop) :
  (∀ v, (∀ b shape flat, v ≠ VArray b shape flat) → P v) →
  (∀ b shape flat, Forall P flat → P (VArray b shape flat)) →
  ∀ v, P v.
Proof.
  intros Hleaf Harr. fix IH 1. intros [| | | | | | | |a|b shape flat| | |];
    try (apply Hleaf; discriminate).
  apply Harr. revert flat. fix IHflat 1.
  intros [|v flat]; constructor; [apply IH|apply IHflat].
Qed.

Lemma add_constraint_container (h : list object) (s : Solver.t)
    (shape : list nat) (flat : list value) :
  Solver.add_constraint h s (VArray true shape flat) = add_all h s flat.
Proof.
  simpl. revert s. induction flat as [|v flat IH]; intros s; [done|].
  simpl. destruct (Solver.add_constraint h s v) as [[s' [[]|e]]|]; [|done..].
  apply IH.
Qed.

Lemma flat_constraints_container (shape : list nat) (flat : list value) :
  flat_constraints (VArray true shape flat) = flat ≫= flat_constraints.
Proof.
  simpl. induction flat as [|v flat IH]; [done|]. by rewrite IH.
Qed.

Lemma dict_set_absent {V} (k : string) (v : V) (d : dict V) :
  dict_get k d = None → dict_set k v d = d ++ [(k, v)].
Proof.
  induction d as [|[k' v'] d IH]; simpl; [done|].
  destruct (String.eqb_spec k k'); [done|]. intros Hk. by rewrite IH.
Qed.

Lemma dict_get_None {V} (k : string) (d : dict V) :
  dict_get k d = None ↔ k ∉ d.*1.
Proof.
  induction d as [|[k' v'] d IH]; simpl.
  - split; [intros _; apply not_elem_of_nil|done].
  - rewrite not_elem_of_cons. destruct (String.eqb_spec k k') as [->|Hne].
    + split; [done|]. by intros [? _].
    + rewrite IH. split; [by intros ?|by intros [_ ?]].
Qed.

(** The registration loop only appends to the map. *)
Lemma register_prefix (h : list object) (vs : list addr) (d d' : dict addr)
    (r : result unit) :
  Solver.register h vs d = (d', r) → d `prefix_of` d'.
Proof.
  revert d. induction vs as [|v vs IH]; intros d; simpl.
  - by intros [= <- _].
  - destruct (h !! v) as [[op values|name dom]|]; [by intros [= <- _]| |by intros [= <- _]].
    destruct (dict_get name d) as [v'|] eqn:Hname.
    + destruct (v' =? v); [apply IH|by intros [= <- _]].
    + rewrite (dict_set_absent _ _ _ Hname). intros Hreg%IH.
      by eapply prefix_app_l.
Qed.

(** X1.  Whatever its argument ([None], an integer, an expression, a
    container, nested or not) and whatever its outcome (return or
    exception), [add_constraint] only appends: the constraint list before the
    call is a prefix of the list after it, and so is the name map, whose
    bindings are kept in their order. *)
Theorem add_constraint_append_only (h : list object) (c : value)
    (s s' : Solver.t) (r : result unit) :
  Solver.add_constraint h s c = Some (s', r) →
  Solver._conststore s `prefix_of` Solver._conststore s'
  ∧ Solver._variables s `prefix_of` Solver._variables s'.
Proof.
  revert s s' r. induction c as [v Hv|b shape flat IH] using value_ind_nested;
    intros s s' r.
  - destruct v as [| | | | | | | |a|b shape flat| | |]; simpl;
      try (intros [= <- _]; done); [|by destruct (Hv b shape flat)].
    destruct (Expression.variables h a) as [vs|]; [|done].
    destruct (Solver.register h vs (Solver._variables s)) as [d' [[]|e]] eqn:Hreg;
      intros [= <- _]; simpl; (split; [|by eapply register_prefix]);
      [by apply prefix_app_r|done].
  - destruct b; [|by intros [= <- _]].
    rewrite add_constraint_container. revert s.
    induction IH as [|v flat Hv _ IHflat]; intros s; simpl; [by intros [= <- _]|].
    destruct (Solver.add_constraint h s v) as [[s1 [[]|e]]|] eqn:Hadd; [| |done].
    + intros Hrest. destruct (Hv _ _ _ Hadd), (IHflat _ Hrest). split; by etrans.
    + intros [= <- _]. by eapply Hv.
Qed.

(** The second variable named "x" makes the call raise; the first one stays
    registered after the binding the solver had. *)
Lemma add_constraint_append_only_witness :
  let d := DomainRange.__init__ (Some 0%Z) (Some 2%Z) in
  let s := Solver.mk [] [("w", 7)] in
  let s' := Solver.mk [] [("w", 7); ("x", 0)] in
  Solver._conststore s `prefix_of` Solver._conststore s'
  ∧ Solver._variables s `prefix_of` Solver._variables s'.
Proof.
  intros d s s'.
  apply (add_constraint_append_only
           [OVariable "x" d; OVariable "x" d; OExpression (Some "+") [ORef 0; ORef 1]]
           (VExpr 2) s s' (Raise (ValueError dup_name_msg))).
  reflexivity.
Defined.

(** X2.  When [add_constraint(c)] returns, the constraints it has appended
    are the expressions of [c] in order: [c] itself for an expression, the
    expression elements of a container in row-major order (each element of a
    container is a constraint of its own, and the [None] and numpy integer
    elements leave no trace), nothing for [None] and a numpy integer. *)
Theorem add_constraint_appends (h : list object) (c : value)
    (s s' : Solver.t) :
  Solver.add_constraint h s c = Some (s', Ok ()) →
  Solver._conststore s' = Solver._conststore s ++ flat_constraints c.
Proof.
  revert s s'. induction c as [v Hv|b shape flat IH] using value_ind_nested;
    intros s s'.
  - destruct v as [| | | | | | | |a|b shape flat| | |]; simpl;
      try done; try (intros [= <-]; by rewrite app_nil_r);
      [|by destruct (Hv b shape flat)].
    destruct (Expression.variables h a) as [vs|]; [|done].
    by destruct (Solver.register h vs (Solver._variables s)) as [d' [[]|e]];
      intros [= <-].
  - destruct b; [|done].
    rewrite add_constraint_container, flat_constraints_container. revert s.
    induction IH as [|v flat Hv _ IHflat]; intros s; simpl.
    + intros [= <-]. by rewrite app_nil_r.
    + destruct (Solver.add_constraint h s v) as [[s1 [[]|e]]|] eqn:Hadd; [|done..].
      intros Hrest. rewrite (IHflat _ Hrest), (Hv _ _ Hadd).
      by rewrite <-app_assoc.
Qed.

Lemma add_constraint_appends_witness :
  let d := DomainRange.__init__ (Some 0%Z) (Some 2%Z) in
  let h := [OVariable "x" d; OVariable "y" d;
            OExpression (Some "=") [ORef 0; ONpInt 0];
            OExpression (Some "=") [ORef 1; ONpInt 0]] in
  let c := VArray true [2; 2] [VExpr 2; VNone; VNpInt 5; VExpr 3] in
  let s' := Solver.mk [2; 3] [("x", 0); ("y", 1)] in
  Solver._conststore s' = Solver._conststore Solver.__init__ ++ flat_constraints c.
Proof.
  intros d h c s'. apply (add_constraint_appends h c Solver.__init__ s').
  reflexivity.
Defined.

(** *** The invariant *)

Lemma registered_preserved (h : list object) (d d' : dict addr) (v : addr) :
  (∀ k x, dict_get k d = Some x → dict_get k d' = Some x) →
  registered h d v = true → registered h d' v = true.
Proof.
  intros Hd. unfold registered.
  destruct (h !! v) as [[op values|name dom]|]; [done| |done].
  destruct (dict_get name d) as [v'|] eqn:Hname; [|done].
  by rewrite (Hd _ _ Hname).
Qed.

Lemma register_keeps_map_ok (h : list object) (vs : list addr)
    (d d' : dict addr) (r : result unit) :
  forallb (entry_ok h) d = true → NoDup d.*1 →
  Solver.register h vs d = (d', r) →
  forallb (entry_ok h) d' = true ∧ NoDup d'.*1.
Proof.
  revert d. induction vs as [|v vs IH]; intros d Hok Hnd; simpl.
  - by intros [= <- _].
  - destruct (h !! v) as [[op values|name dom]|] eqn:Hv;
      [by intros [= <- _]| |by intros [= <- _]].
    destruct (dict_get name d) as [v'|] eqn:Hname.
    + destruct (v' =? v); [by apply IH|by intros [= <- _]].
    + rewrite (dict_set_absent _ _ _ Hname). apply IH.
      * rewrite forallb_app, Hok. simpl. unfold entry_ok. simpl.
        by rewrite Hv, String.eqb_refl.
      * rewrite fmap_app. apply NoDup_app. split_and!; [done| |apply NoDup_singleton].
        intros k Hk ->%list_elem_of_singleton. by apply dict_get_None in Hname.
Qed.

(** After a registration that returned, every variable is registered. *)
Lemma register_Ok_registered (h : list object) (vs : list addr)
    (d d' : dict addr) :
  Solver.register h vs d = (d', Ok ()) →
  forallb (registered h d') vs = true.
Proof.
  revert d. induction vs as [|v vs IH]; intros d; simpl; [done|].
  destruct (h !! v) as [[op values|name dom]|] eqn:Hv; [done| |done].
  destruct (dict_get name d) as [v'|] eqn:Hname.
  - destruct (Nat.eqb_spec v' v) as [->|]; [|done].
    intros Hreg. rewrite (IH _ Hreg), andb_true_r.
    unfold registered. rewrite Hv.
    by rewrite (register_preserves _ _ _ _ _ _ _ Hreg Hname), Nat.eqb_refl.
  - intros Hreg. rewrite (IH _ Hreg), andb_true_r.
    unfold registered. rewrite Hv.
    by rewrite (register_preserves _ _ _ _ _ _ _ Hreg (dict_get_set_eq _ _ _)),
         Nat.eqb_refl.
Qed.

Lemma covered_preserved (h : list object) (d d' : dict addr) (cs : list addr) :
  (∀ k x, dict_get k d = Some x → dict_get k d' = Some x) →
  forallb (λ c, match Expression.variables h c with
                | Some vs => forallb (registered h d) vs
                | None => false
                end) cs = true →
  forallb (λ c, match Expression.variables h c with
                | Some vs => forallb (registered h d') vs
                | None => false
                end) cs = true.
Proof.
  intros Hd. rewrite !forallb_forall. intros Hcs c Hc. specialize (Hcs c Hc).
  destruct (Expression.variables h c) as [vs|]; [|done].
  rewrite forallb_forall in Hcs |- *. intros v Hin.
  by eapply registered_preserved, Hcs.
Qed.

(** X3.  [add_constraint] keeps the solver's invariant, whatever its
    argument and whether it returns or raises: afterwards the map still
    binds each name once, to a [Variable] object of that name, and every
    variable of every stored constraint is registered under its name. *)
Theorem add_constraint_keeps_invariant (h : list object) (c : value)
    (s s' : Solver.t) (r : result unit) :
  solver_ok h s = true →
  Solver.add_constraint h s c = Some (s', r) →
  solver_ok h s' = true.
Proof.
  revert s s' r. induction c as [v Hv|b shape flat IH] using value_ind_nested;
    intros s s' r Hok.
  - destruct v as [| | | | | | | |a|b shape flat| | |]; simpl;
      try (by intros [= <- _]); [|by destruct (Hv b shape flat)].
    destruct (Expression.variables h a) as [vs|] eqn:Hvs; [|done].
    unfold solver_ok in Hok.
    apply andb_prop in Hok as [[Hentries Hnd%bool_decide_eq_true]%andb_prop Hcov].
    destruct (Solver.register h vs (Solver._variables s)) as [d' [[]|e]] eqn:Hreg;
      intros [= <- _]; unfold solver_ok; simpl;
      destruct (register_keeps_map_ok _ _ _ _ _ Hentries Hnd Hreg) as [-> Hnd'];
      rewrite (bool_decide_eq_true_2 _ Hnd'); simpl.
    + rewrite forallb_app. simpl. rewrite Hvs, (register_Ok_registered _ _ _ _ Hreg).
      rewrite andb_true_r. eapply covered_preserved; [|done].
      intros k x. by eapply register_preserves.
    + eapply covered_preserved; [|done]. intros k x. by eapply register_preserves.
  - destruct b; [|by intros [= <- _]].
    rewrite add_constraint_container. revert s Hok.
    induction IH as [|v flat Hv _ IHflat]; intros s Hok; simpl; [by intros [= <- _]|].
    destruct (Solver.add_constraint h s v) as [[s1 [[]|e]]|] eqn:Hadd; [| |done].
    + apply IHflat. by eapply Hv.
    + intros [= <- _]. by eapply Hv.
Qed.

Lemma add_constraint_keeps_invariant_witness :
  let d := DomainRange.__init__ (Some 0%Z) (Some 2%Z) in
  let h := [OVariable "y" d; OVariable "x" d; OVariable "y" d;
            OExpression (Some "+") [ORef 1; ORef 2]] in
  solver_ok h (Solver.mk [0] [("y", 0); ("x", 1)]) = true.
Proof.
  intros d h.
  apply (add_constraint_keeps_invariant h (VExpr 3) (Solver.mk [0] [("y", 0)])
           (Solver.mk [0] [("y", 0); ("x", 1)]) (Raise (ValueError dup_name_msg)));
    reflexivity.
Defined.

Lemma registered_app (h h' : list object) (d : dict addr) (v : addr) :
  registered h d v = true → registered (h ++ h') d v = true.
Proof.
  unfold registered. destruct (h !! v) as [o|] eqn:Hv; [|done].
  by rewrite (lookup_app_l_Some _ _ _ _ Hv).
Qed.

(** X4.  The invariant of a solver does not depend on what is allocated
    later: building new variables and expressions, which only appends
    objects to the heap, leaves every solver that satisfied it
    satisfying it. *)
Theorem solver_ok_heap_grows (h h' : list object) (s : Solver.t) :
  solver_ok h s = true → solver_ok (h ++ h') s = true.
Proof.
  unfold solver_ok. intros [[Hentries ->]%andb_prop Hcov]%andb_prop.
  rewrite andb_true_r. apply andb_true_intro. split.
  - rewrite forallb_forall in Hentries |- *. intros entry Hin.
    specialize (Hentries entry Hin). unfold entry_ok in *.
    destruct (h !! entry.2) as [o|] eqn:Hv; [|done].
    by rewrite (lookup_app_l_Some _ _ _ _ Hv).
  - rewrite forallb_forall in Hcov |- *. intros c Hin. specialize (Hcov c Hin).
    destruct (Expression.variables h c) as [vs|] eqn:Hvs; [|done].
    rewrite (variables_app _ h' _ _ Hvs).
    rewrite forallb_forall in Hcov |- *. intros v Hv.
    by apply registered_app, Hcov.
Qed.

Lemma solver_ok_heap_grows_witness :
  let d := DomainRange.__init__ (Some 0%Z) (Some 2%Z) in
  let h := [OVariable "x" d; OExpression (Some "=") [ORef 0; OInt 1]] in
  solver_ok (h ++ [OVariable "x" d; OExpression (Some "+") [ORef 2; ORef 0]])
    (Solver.mk [1] [("x", 0)]) = true.
Proof.
  intros d h. apply (solver_ok_heap_grows h _ (Solver.mk [1] [("x", 0)])).
  reflexivity.
Defined.

Lemma registered_same (h : list object) (d : dict addr) (vs : list addr) :
  forallb (registered h d) vs = true → Solver.register h vs d = (d, Ok ()).
Proof.
  rewrite forallb_forall. intros Hall. apply register_same, Forall_forall.
  intros v Hin%list_elem_of_In. specialize (Hall v Hin). unfold registered in Hall.
  destruct (h !! v) as [[op values|name dom]|] eqn:Hv; [done| |done].
  destruct (dict_get name d) as [v'|] eqn:Hname; [|done].
  apply Nat.eqb_eq in Hall as ->. by exists name, dom.
Qed.

(** X5.  Registering a constraint that was accepted once is accepted again
    and changes nothing but the constraint list: the second call returns,
    leaves the name map as the first call left it, and appends the
    constraint a second time (the store keeps duplicates). *)
Theorem add_constraint_again (h : list object) (s s1 : Solver.t) (c : addr) :
  Solver.add_constraint h s (VExpr c) = Some (s1, Ok ()) →
  Solver.add_constraint h s1 (VExpr c)
  = Some (Solver.mk (Solver._conststore s ++ [c; c]) (Solver._variables s1), Ok ()).
Proof.
  simpl. destruct (Expression.variables h c) as [vs|]; [|done].
  destruct (Solver.register h vs (Solver._variables s)) as [d' [[]|e]] eqn:Hreg;
    intros [= <-]; simpl.
  rewrite (registered_same _ _ _ (register_Ok_registered _ _ _ _ Hreg)).
  by rewrite <-app_assoc.
Qed.

Lemma add_constraint_again_witness :
  let d := DomainRange.__init__ (Some 0%Z) (Some 2%Z) in
  let h := [OVariable "a" d; OVariable "b" d;
            OExpression (Some "+") [ORef 0; ORef 1]] in
  Solver.add_constraint h (Solver.mk [2] [("a", 0); ("b", 1)]) (VExpr 2)
  = Some (Solver.mk [2; 2] [("a", 0); ("b", 1)], Ok ()).
Proof.
  intros d h. apply (add_constraint_again h Solver.__init__). reflexivity.
Defined.

Lemma register_Ok_of_consistent (h : list object) (vs : list addr)
    (d : dict addr) :
  Forall (λ v, is_Variable h v = true) vs →
  (∀ v n dom v', v ∈ vs → h !! v = Some (OVariable n dom) →
                 dict_get n d = Some v' → v' = v) →
  (∀ v u n dom du, v ∈ vs → u ∈ vs → h !! v = Some (OVariable n dom) →
                   h !! u = Some (OVariable n du) → u = v) →
  ∃ d', Solver.register h vs d = (d', Ok ()).
Proof.
  intros Hvs. revert d. induction Hvs as [|v vs Hv _ IH]; intros d Hd Hint; simpl.
  { by eexists. }
  unfold is_Variable in Hv.
  destruct (h !! v) as [[op values|name dom]|] eqn:Hlook; [done| |done].
  destruct (dict_get name d) as [v'|] eqn:Hname.
  - rewrite (Hd v name dom v'), Nat.eqb_refl; [|set_solver|done|done].
    apply IH.
    + intros u n du u' Hin. apply Hd. set_solver.
    + intros u w n du dw Hu Hw. apply Hint; set_solver.
  - apply IH.
    + intros u n du u' Hin Hu. destruct (decide (name = n)) as [->|Hne].
      * rewrite dict_get_set_eq. intros [= <-].
        apply (Hint u v n du dom); [set_solver|set_solver|done|done].
      * rewrite dict_get_set_ne by done. apply (Hd u n du u'); [set_solver|done].
    + intros u w n du dw Hu Hw. apply Hint; set_solver.
Qed.

(** X6.  [add_constraint] accepts an expression exactly when its variables
    are consistent with the map and with each other: it returns if and only
    if no variable of the expression has a name that the map binds to
    another object, and no two distinct variables of the expression have the
    same name. *)
Theorem add_constraint_returns_iff (h : list object) (s : Solver.t) (c : addr)
    (vs : list addr) :
  Expression.variables h c = Some vs →
  (∃ s', Solver.add_constraint h s (VExpr c) = Some (s', Ok ()))
  ↔ (∀ v n dom v', v ∈ vs → h !! v = Some (OVariable n dom) →
                   dict_get n (Solver._variables s) = Some v' → v' = v)
    ∧ (∀ v u n dom du, v ∈ vs → u ∈ vs → h !! v = Some (OVariable n dom) →
                       h !! u = Some (OVariable n du) → u = v).
Proof.
  intros Hvs. split.
  - intros [s' Hadd]. split.
    + intros v n dom v' Hin Hv Hn. destruct (decide (v' = v)) as [|Hne]; [done|].
      destruct (add_constraint_conflict h s c vs v v' n dom Hvs Hin Hv Hn Hne)
        as [s'' Hfail]. congruence.
    + intros v u n dom du Hv Hu Hlv Hlu. destruct (decide (u = v)) as [|Hne]; [done|].
      destruct (add_constraint_two_objects h s c vs u v n du dom Hvs Hu Hv Hne Hlu Hlv)
        as [s'' Hfail]. congruence.
  - intros [Hd Hint]. rewrite (add_constraint_Expr _ _ _ _ Hvs).
    destruct (register_Ok_of_consistent h vs (Solver._variables s)
                (variables_are_Variables _ _ _ Hvs) Hd Hint) as [d' ->].
    by eexists.
Qed.

Lemma add_constraint_returns_iff_witness :
  let d := DomainRange.__init__ (Some 0%Z) (Some 2%Z) in
  let h := [OVariable "x" d; OVariable "x" d;
            OExpression (Some "+") [ORef 0; ORef 1]] in
  (∃ s', Solver.add_constraint h Solver.__init__ (VExpr 2) = Some (s', Ok ()))
  ↔ (∀ v n dom v', v ∈ [0; 1] → h !! v = Some (OVariable n dom) →
                   dict_get n (Solver._variables Solver.__init__) = Some v' → v' = v)
    ∧ (∀ v u n dom du, v ∈ [0; 1] → u ∈ [0; 1] → h !! v = Some (OVariable n dom) →
                       h !! u = Some (OVariable n du) → u = v).
Proof.
  intros d h. apply (add_constraint_returns_iff h Solver.__init__ 2 [0; 1]).
  reflexivity.
Defined.

(** ** Expressions *)

Lemma expression_values_operands (os : list operand) :
  Expression.expression_values os
  = omap (λ v, match v with VExpr a => Some a | _ => None end) (operand_value <$> os).
Proof.
  unfold Expression.expression_values.
  induction os as [|[| | |a] os IH]; csimpl; [done|by rewrite IH..].
Qed.

Lemma mapM_agree {A B} (f g : A → option B) (l : list A) :
  Forall (λ x, ∃ y, f x = Some y ∧ g x = Some y) l →
  ∃ ys, mapM f l = Some ys ∧ mapM g l = Some ys.
Proof.
  induction 1 as [|x l (y & Hf & Hg) _ (ys & Hfs & Hgs)]; simpl.
  - by exists [].
  - exists (y :: ys). by rewrite Hf, Hg, Hfs, Hgs.
Qed.

(** X7.  The variables of a node are those of its expression operands, in
    the order of the operands; an integer operand contributes nothing.  On a
    heap built by the constructors, for every operator tag and every number
    of operands: when [Expression(op, *values)] returns the node [r],
    [variables] returns on each expression among [values], and on [r] it
    returns the concatenation of these lists. *)
Theorem variables_of_node (op : option string) (values : list value)
    (st st' : state) (r : addr) :
  let refs := omap (λ v, match v with VExpr a => Some a | _ => None end) values in
  heap_wf (heap st) = true →
  Forall (λ a, a < length (heap st)) refs →
  Expression.__init__ op values st = (st', Ok r) →
  ∃ ls, mapM (Expression.variables (heap st)) refs = Some ls
        ∧ Expression.variables (heap st') r = Some (concat ls).
Proof.
  intros refs Hwf Hrefs Hinit.
  apply init_Ok_operands in Hinit as (os & Hvalues & Hheap & ->).
  assert (refs = Expression.expression_values os) as Hos.
  { subst refs. by rewrite expression_values_operands, Hvalues. }
  destruct (mapM_agree (Expression.variables (heap st))
              (Expression.variables_fuel (length (heap st)) (heap st')) refs)
    as (ls & Hls & Hls').
  { eapply Forall_impl; [done|]. intros a Ha. simpl in Ha.
    destruct (variables_total _ _ Hwf Ha) as [l Hl]. exists l. split; [done|].
    rewrite Hheap. apply variables_fuel_app.
    apply (variables_fuel_mono (S a)); [lia|done]. }
  exists ls. split; [done|].
  unfold Expression.variables. simpl. rewrite Hheap at 1.
  rewrite lookup_app_r, Nat.sub_diag by done. simpl.
  by rewrite <-Hos, Hls'.
Qed.

(** [x + 5 + y] built on the two variables [x] and [y]. *)
Lemma variables_of_node_witness :
  let d := DomainRange.__init__ None None in
  let st := mkState [OVariable "x" d; OVariable "y" d;
                     OExpression (Some "+") [ORef 0; OInt 5]] 0 in
  ∃ ls, mapM (Expression.variables (heap st)) [2; 1] = Some ls
        ∧ Expression.variables (heap st ++ [OExpression (Some "+") [ORef 2; ORef 1]]) 3
          = Some (concat ls).
Proof.
  intros d st.
  apply (variables_of_node (Some "+") [VExpr 2; VExpr 1] st
           (mkState (heap st ++ [OExpression (Some "+") [ORef 2; ORef 1]]) 0) 3).
  - reflexivity.
  - repeat constructor.
  - reflexivity.
Defined.

Lemma variables_fuel_bound (n : nat) (h : list object) (a : addr)
    (l : list addr) :
  heap_wf h = true → Expression.variables_fuel n h a = Some l →
  Forall (λ v, v ≤ a) l.
Proof.
  intros Hwf. revert a l. induction n as [|n IH]; intros a l; [done|]. simpl.
  destruct (h !! a) as [[op values|name dom]|] eqn:Ha; [| |done].
  - destruct (mapM (Expression.variables_fuel n h) _) as [ls|] eqn:Hls; [|done].
    intros [= <-]. apply mapM_Some in Hls. apply Forall_concat.
    assert (Forall (λ b, b < a) (Expression.expression_values values)) as Hlt.
    { apply Forall_forall. intros b Hb%elem_of_expression_values.
      by eapply wf_object_ref, Hb; eapply heap_wf_lookup. }
    induction Hls as [|b lb bs ls Hb _ IHls]; [done|].
    apply Forall_cons in Hlt as [Hba Hlt]. constructor; [|by apply IHls].
    eapply Forall_impl; [by eapply IH|]. simpl. lia.
  - intros [= <-]. by repeat constructor.
Qed.

(** X8.  On a heap built by the constructors, every reference that
    [c.variables()] returns denotes a [Variable] object (so reading its
    [name] in [add_constraint] cannot fail), and this object is [c] itself or
    was created before [c]. *)
Theorem variables_sound (h : list object) (c : addr) (l : list addr) :
  heap_wf h = true → Expression.variables h c = Some l →
  Forall (λ v, is_Variable h v = true ∧ v ≤ c) l.
Proof.
  intros Hwf Hl. apply Forall_and. split.
  - by eapply variables_are_Variables.
  - by eapply variables_fuel_bound.
Qed.

Lemma variables_sound_witness :
  let d := DomainRange.__init__ None None in
  let h := [OVariable "x" d; OVariable "y" d;
            OExpression (Some "+") [ORef 0; OInt 5];
            OExpression (Some "=") [ORef 1; ORef 2]] in
  Forall (λ v, is_Variable h v = true ∧ v ≤ 3) [1; 0].
Proof. intros d h. apply (variables_sound h 3 [1; 0]); reflexivity. Defined.

(** *** Rendering *)

Lemma str_fuel_mono (n m : nat) (h : list object) (v : operand)
    (r : result string) :
  n ≤ m → Expression.str_fuel n h v = Some r → Expression.str_fuel m h v = Some r.
Proof.
  revert m v r. induction n as [|n IH]; intros m v r Hle.
  - destruct v; [by destruct m..|done].
  - destruct m as [|m]; [lia|]. destruct v as [| | |a]; [done..|]. simpl.
    destruct (h !! a) as [[op [|v0 rest]|name dom]|]; [done| |done..].
    destruct (Expression.str_fuel n h v0) as [[s0|e]|] eqn:H0; [| |done].
    + rewrite (IH m v0 (Ok s0)) by (done || lia).
      destruct op as [o|]; [|done]. destruct rest as [|v1 rest]; [done|].
      destruct (Expression.str_fuel n h v1) as [r1|] eqn:H1; [|by destruct r].
      rewrite (IH m v1 r1) by (done || lia). done.
    + by rewrite (IH m v0 (Raise e)) by (done || lia).
Qed.

Lemma str_fuel_app (n : nat) (h h' : list object) (v : operand)
    (r : result string) :
  Expression.str_fuel n h v = Some r →
  Expression.str_fuel n (h ++ h') v = Some r.
Proof.
  revert v r. induction n as [|n IH]; intros v r.
  - by destruct v.
  - destruct v as [| | |a]; [done..|]. simpl.
    destruct (h !! a) as [o|] eqn:Ha; [|done].
    rewrite (lookup_app_l_Some _ _ _ _ Ha).
    destruct o as [op [|v0 rest]|name dom]; [done| |done].
    destruct (Expression.str_fuel n h v0) as [[s0|e]|] eqn:H0; [| |done].
    + rewrite (IH v0 (Ok s0)) by done.
      destruct op as [o|]; [|done]. destruct rest as [|v1 rest]; [done|].
      destruct (Expression.str_fuel n h v1) as [r1|] eqn:H1; [|by destruct r].
      by rewrite (IH v1 r1).
    + by rewrite (IH v0 (Raise e)).
Qed.

(** X9.  [str] of a binary node is the rendering of its left operand, a
    space, the operator tag, a space and the rendering of its right operand,
    without parentheses: when the two operands (expressions that exist, or
    integers) render as [s1] and [s2], the node [Expression(op, v1, v2)]
    renders as [s1 op s2]. *)
Theorem str_of_node (op : string) (v1 v2 : value) (o1 o2 : operand)
    (s1 s2 : string) (st : state) :
  as_operand v1 = Some o1 → as_operand v2 = Some o2 →
  fuel_of o1 ≤ length (heap st) → fuel_of o2 ≤ length (heap st) →
  Expression.str_fuel (fuel_of o1) (heap st) o1 = Some (Ok s1) →
  Expression.str_fuel (fuel_of o2) (heap st) o2 = Some (Ok s2) →
  ∃ st' r, Expression.__init__ (Some op) [v1; v2] st = (st', Ok r)
           ∧ Expression.__str__ (heap st') r
             = Some (Ok (s1 +:+ " " +:+ op +:+ " " +:+ s2)).
Proof.
  intros H1 H2 Hf1 Hf2 Hs1 Hs2.
  unfold Expression.__init__, bind, lift. simpl. rewrite H1, H2. simpl.
  eexists _, _. split; [reflexivity|].
  unfold Expression.__str__. simpl.
  rewrite lookup_app_r, Nat.sub_diag by done. simpl.
  rewrite (str_fuel_mono (fuel_of o1) _ _ o1 (Ok s1) Hf1 (str_fuel_app _ _ _ _ _ Hs1)).
  by rewrite (str_fuel_mono (fuel_of o2) _ _ o2 (Ok s2) Hf2 (str_fuel_app _ _ _ _ _ Hs2)).
Qed.

(** [(x + 1) + y] renders as "x + 1 + y". *)
Lemma str_of_node_witness :
  let d := DomainRange.__init__ None None in
  let st := mkState [OVariable "x" d; OVariable "y" d;
                     OExpression (Some "+") [ORef 0; OInt 1]] 0 in
  ∃ st' r, Expression.__init__ (Some "+") [VExpr 2; VExpr 1] st = (st', Ok r)
           ∧ Expression.__str__ (heap st') r
             = Some (Ok ("x + 1" +:+ " " +:+ "+" +:+ " " +:+ "y")).
Proof.
  intros d st.
  apply (str_of_node "+" (VExpr 2) (VExpr 1) (ORef 2) (ORef 1) "x + 1" "y" st);
    try reflexivity; simpl; lia.
Defined.

(** ** Construction of variables and containers *)

Lemma append_inj_l (p s1 s2 : string) : p +:+ s1 = p +:+ s2 → s1 = s2.
Proof. induction p as [|c p IH]; simpl; [done|]. intros [= ?]. by apply IH. Qed.

Lemma element_name_inj (p : string) : Inj (=) (=) (λ i : nat, p +:+ "_" +:+ pretty i).
Proof.
  intros i j Heq. apply append_inj_l in Heq. simpl in Heq.
  injection Heq as Heq. by apply pretty_nat_inj in Heq.
Qed.

(** X10.  [Variables(shape, domain, name_prefix)], when the domain is
    accepted, returns a container of the given shape whose elements are
    [size shape] new [Variable] objects, allocated one after the other; the
    [i]-th element (in row-major order) is named by the prefix, an
    underscore and [i] in decimal, and has the converted domain; the names
    of the elements are pairwise distinct; the objects that existed are
    untouched. *)
Theorem Variables_new_elements (shape : list nat) (d : domain_arg)
    (dom : DomainRange.t) (name_prefix : option string) (st : state) :
  Variable_.convert_domain d = Ok dom →
  let prefix := default ("var_" +:+ pretty (_varidx st)) name_prefix in
  let names := (λ i : nat, prefix +:+ "_" +:+ pretty i) <$> seq 0 (size shape) in
  ∃ st',
    Variables.__new__ shape d name_prefix st
    = (st', Ok (VArray true shape (VExpr <$> seq (length (heap st)) (size shape))))
    ∧ heap st' = heap st ++ ((λ n, OVariable n dom) <$> names)
    ∧ names_of (heap st') (VExpr <$> seq (length (heap st)) (size shape)) = names
    ∧ NoDup names.
Proof.
  intros Hd prefix names.
  rewrite (Variables_new_spec shape d dom name_prefix st Hd). fold prefix.
  eexists. split_and!; [reflexivity| | |].
  - simpl. subst names. by rewrite <-list_fmap_compose.
  - simpl. subst names.
    pose proof (names_of_seq
      (heap st ++ ((λ i, OVariable (prefix +:+ "_" +:+ pretty i) dom)
                     <$> seq 0 (size shape)))
      (heap st) (seq 0 (size shape)) (λ i, prefix +:+ "_" +:+ pretty i) dom) as Hn.
    rewrite length_seq in Hn. by apply Hn.
  - apply NoDup_fmap_2; [apply element_name_inj|apply NoDup_seq].
Qed.

Lemma Variables_new_elements_witness :
  let dom := DomainRange.__init__ (Some 0%Z) (Some 3%Z) in
  let names := (λ i : nat, "q" +:+ "_" +:+ pretty i) <$> seq 0 (size [2; 3]) in
  ∃ st',
    Variables.__new__ [2; 3] (DomRange 0 3 1) (Some "q") (mkState [] 7)
    = (st', Ok (VArray true [2; 3] (VExpr <$> seq 0 (size [2; 3]))))
    ∧ heap st' = [] ++ ((λ n, OVariable n dom) <$> names)
    ∧ names_of (heap st') (VExpr <$> seq 0 (size [2; 3])) = names
    ∧ NoDup names.
Proof.
  intros dom names.
  apply (Variables_new_elements [2; 3] (DomRange 0 3 1) dom (Some "q") (mkState [] 7)).
  reflexivity.
Defined.

(** X11.  A rejected domain (a [range] whose step is not 1) makes
    [Variable(domain, name)] raise the [AssertionError] of [fromrange]
    without creating any object; but a name drawn from the generator is
    lost: without a [name] argument the counter has advanced.  The same
    holds for a container with at least one element, which fails at its
    first element; a container with no element never converts its domain
    and is built. *)
Theorem rejected_domain (start stop step : Z) (name : option string)
    (shape : list nat) (st : state) :
  step ≠ 1%Z →
  let st1 := mkState (heap st)
               (match name with Some _ => _varidx st | None => S (_varidx st) end) in
  let e := AssertionError "Sparse ranges not implemented yet" in
  Variable_.__init__ (DomRange start stop step) name st = (st1, Raise e)
  ∧ Variables.__new__ shape (DomRange start stop step) name st
    = (st1, if decide (size shape = 0) then Ok (VArray true shape []) else Raise e).
Proof.
  intros Hstep st1 e.
  assert (Variable_.convert_domain (DomRange start stop step) = Raise e) as Hd.
  { simpl. by destruct (Z.eqb_spec step 1). }
  split.
  - destruct name; [rewrite Variable_init_named|rewrite Variable_init_auto];
      rewrite Hd; subst st1; by destruct st.
  - unfold Variables.__new__, bind, ret, Variable_.new_name.
    destruct (size shape) as [|n] eqn:Hsize.
    + destruct name; simpl; subst st1; by destruct st.
    + rewrite decide_False by lia. simpl seq.
      destruct name as [p|].
      * rewrite (new_elements_fail _ e (λ i, p +:+ "_" +:+ pretty i)) by done.
        subst st1; by destruct st.
      * by rewrite (new_elements_fail _ e
             (λ i, ("var_" +:+ pretty (_varidx st)) +:+ "_" +:+ pretty i)).
Qed.

Lemma rejected_domain_witness :
  let e := AssertionError "Sparse ranges not implemented yet" in
  Variable_.__init__ (DomRange 0 10 2) None (mkState [] 4) = (mkState [] 5, Raise e)
  ∧ Variables.__new__ [2; 0] (DomRange 0 10 2) None (mkState [] 4)
    = (mkState [] 5, if decide (size [2; 0] = 0) then Ok (VArray true [2; 0] [])
                     else Raise e).
Proof. apply (rejected_domain 0 10 2 None [2; 0] (mkState [] 4)). discriminate. Defined.

Lemma dict_get_app_None {V} (k : string) (d1 d2 : dict V) :
  dict_get k d1 = None → dict_get k (d1 ++ d2) = dict_get k d2.
Proof.
  induction d1 as [|[k' v'] d1 IH]; simpl; [done|].
  by destruct (String.eqb_spec k k').
Qed.

(** Registering, one after the other, variables whose names are distinct
    and unknown to the solver. *)
Lemma add_all_fresh (h : list object) (l : list (string * addr)) (s : Solver.t) :
  Forall (λ na, ∃ dom, h !! na.2 = Some (OVariable na.1 dom)) l →
  NoDup l.*1 →
  Forall (λ n, dict_get n (Solver._variables s) = None) l.*1 →
  add_all h s (VExpr <$> l.*2)
  = Some (Solver.mk (Solver._conststore s ++ l.*2) (Solver._variables s ++ l), Ok ()).
Proof.
  intros Hl. revert s. induction Hl as [|[n a] l [dom Ha] _ IH]; intros s Hnd Hfresh.
  - simpl. rewrite !app_nil_r. by destruct s.
  - simpl in *. apply NoDup_cons in Hnd as [Hn Hnd].
    apply Forall_cons in Hfresh as [Hfn Hfresh].
    unfold Expression.variables. simpl. rewrite Ha. simpl. rewrite Ha, Hfn.
    rewrite (dict_set_absent _ _ _ Hfn). simpl.
    rewrite IH; simpl; [by rewrite <-!app_assoc|done|].
    rewrite Forall_forall in Hfresh |- *. intros n' Hin.
    rewrite dict_get_app_None by auto. simpl.
    destruct (String.eqb_spec n' n) as [->|]; [done|done].
Qed.

(** X12.  A container that has just been built can be registered in any
    solver that does not know the names of its elements:
    [add_constraint(container)] returns, binds the name of each element to
    the element, in row-major order and after the bindings the solver had,
    and appends each element to the constraints (a bare [Variable] is stored
    as a constraint of its own). *)
Theorem register_new_container (shape : list nat) (d : domain_arg)
    (dom : DomainRange.t) (name_prefix : option string) (st st' : state)
    (v : value) (s : Solver.t) :
  let prefix := default ("var_" +:+ pretty (_varidx st)) name_prefix in
  let entries := (λ i : nat, (prefix +:+ "_" +:+ pretty i, length (heap st) + i))
                   <$> seq 0 (size shape) in
  Variable_.convert_domain d = Ok dom →
  Variables.__new__ shape d name_prefix st = (st', Ok v) →
  Forall (λ n, dict_get n (Solver._variables s) = None) entries.*1 →
  Solver.add_constraint (heap st') s v
  = Some (Solver.mk (Solver._conststore s ++ entries.*2)
            (Solver._variables s ++ entries), Ok ()).
Proof.
  intros prefix entries Hd Hnew Hfresh.
  rewrite (Variables_new_spec shape d dom name_prefix st Hd) in Hnew.
  fold prefix in Hnew. injection Hnew as <- <-. simpl heap.
  rewrite add_constraint_container.
  assert (seq (length (heap st)) (size shape) = entries.*2) as ->.
  { subst entries. rewrite <-list_fmap_compose.
    rewrite <-(Nat.add_0_r (length (heap st))) at 1.
    by rewrite <-fmap_add_seq. }
  apply add_all_fresh; [|..|done].
  - subst entries. apply Forall_fmap, Forall_forall. intros i Hi. simpl.
    exists dom. rewrite lookup_app_add, list_lookup_fmap.
    apply elem_of_seq in Hi. by rewrite lookup_seq_lt by lia.
  - subst entries. rewrite <-list_fmap_compose.
    apply NoDup_fmap_2; [apply element_name_inj|apply NoDup_seq].
Qed.

Lemma register_new_container_witness :
  let dom := DomainRange.__init__ None None in
  let st' := mkState [OVariable "var_0_0" dom; OVariable "var_0_1" dom] 1 in
  Solver.add_constraint (heap st') Solver.__init__ (VArray true [2] [VExpr 0; VExpr 1])
  = Some (Solver.mk [0; 1] [("var_0_0", 0); ("var_0_1", 1)], Ok ()).
Proof.
  intros dom st'.
  apply (register_new_container [2] DomNone dom None (mkState [] 0) st'
           (VArray true [2] [VExpr 0; VExpr 1]) Solver.__init__).
  - reflexivity.
  - vm_compute. reflexivity.
  - repeat constructor.
Defined.

(** ** Elementwise equality on containers *)

Lemma ravel_unravel (s : list nat) (k : nat) :
  k < size s → ravel_rev s (unravel_rev s k) = k.
Proof.
  revert k. induction s as [|d s IH]; intros k; simpl; [lia|].
  intros Hk. assert (d ≠ 0) by (intros ->; simpl in Hk; lia).
  rewrite IH by (apply Nat.Div0.div_lt_upper_bound; lia).
  destruct (Nat.eqb_spec d 1) as [->|Hd].
  - rewrite Nat.div_1_r. lia.
  - pose proof (Nat.div_mod_eq k d). lia.
Qed.

Lemma size_app (s1 s2 : list nat) : size (s1 ++ s2) = size s1 * size s2.
Proof. induction s1 as [|d s1 IH]; simpl; [lia|]. rewrite IH. lia. Qed.

Lemma size_rev (s : list nat) : size (rev s) = size s.
Proof.
  induction s as [|d s IH]; [done|]. simpl. rewrite size_app, IH. simpl. lia.
Qed.

Lemma broadcast_shape_scalar (s : list nat) : broadcast_shape s [] = Some s.
Proof.
  unfold broadcast_shape. simpl.
  rewrite <-(rev_involutive s) at 2. by destruct (rev s).
Qed.

Lemma broadcast_shape_same (s : list nat) : broadcast_shape s s = Some s.
Proof.
  unfold broadcast_shape.
  assert (∀ l, broadcast_shape_rev l l = Some l) as ->.
  { induction l as [|d l IH]; [done|]. simpl. by rewrite Nat.eqb_refl, IH. }
  simpl. by rewrite rev_involutive.
Qed.

Lemma fmap_lookup_seq {A B} (g : A → B) (x : A) (l : list A) :
  (λ k, g (default x (l !! k))) <$> seq 0 (length l) = g <$> l.
Proof.
  apply list_eq. intros i. rewrite !list_lookup_fmap.
  destruct (decide (i < length l)) as [Hi|Hi].
  - rewrite lookup_seq_lt by done. simpl.
    destruct (lookup_lt_is_Some_2 l i Hi) as [y ->]. done.
  - rewrite lookup_seq_ge, lookup_ge_None_2 by lia. done.
Qed.

(** Broadcasting an array against a scalar pairs each element with the
    scalar; broadcasting two arrays of one shape pairs their elements. *)
Lemma broadcast_scalar (b : bool) (shape : list nat) (flat : list value)
    (y y' : value) :
  as_array y = ([], [y']) → length flat = size shape →
  broadcast (VArray b shape flat) y = Ok (shape, (λ a, (a, y')) <$> flat).
Proof.
  intros Hy Hlen. unfold broadcast. simpl as_array. rewrite Hy.
  rewrite broadcast_shape_scalar. do 2 f_equal.
  rewrite <-Hlen, <-(fmap_lookup_seq (λ a, (a, y')) VNone flat).
  apply list_fmap_ext. intros i k Hk.
  apply lookup_seq in Hk as [-> Hi]. simpl.
  by rewrite ravel_unravel by (rewrite size_rev; lia).
Qed.

Lemma broadcast_same_shape (b1 b2 : bool) (shape : list nat)
    (f1 f2 : list value) :
  length f1 = size shape → length f2 = size shape →
  broadcast (VArray b1 shape f1) (VArray b2 shape f2) = Ok (shape, zip f1 f2).
Proof.
  intros H1 H2. unfold broadcast, as_array. cbv beta iota zeta.
  rewrite broadcast_shape_same. do 2 f_equal.
  apply list_eq. intros i. rewrite list_lookup_fmap, lookup_zip_with.
  destruct (decide (i < size shape)) as [Hi|Hi].
  - rewrite lookup_seq_lt by done. simpl.
    rewrite ravel_unravel by (rewrite size_rev; lia).
    destruct (lookup_lt_is_Some_2 f1 i) as [x ->]; [lia|].
    destruct (lookup_lt_is_Some_2 f2 i) as [y ->]; [lia|]. done.
  - rewrite lookup_seq_ge by lia. simpl.
    by rewrite (lookup_ge_None_2 f1) by lia.
Qed.

(** Comparing expressions with an integer, one after the other. *)
Lemma eq_items_operand (host_eq : value → value → M value) (y : value)
    (o : operand) (l : list addr) (st : state) :
  as_operand y = Some o → (∀ e, y ≠ VExpr e) →
  mapM_ (λ ab, py_eq host_eq ab.1 ab.2) ((λ a, (VExpr a, y)) <$> l) st
  = (mkState (heap st ++ ((λ a, OExpression (Some "=") [ORef a; o]) <$> l))
       (_varidx st),
     Ok (VExpr <$> seq (length (heap st)) (length l))).
Proof.
  intros Ho Hy. revert st. induction l as [|a l IH]; intros st.
  - simpl. unfold ret. rewrite app_nil_r. by destruct st.
  - cbn [fmap list_fmap mapM_ fst snd]. unfold bind at 1.
    assert (py_eq host_eq (VExpr a) y st
            = (mkState (heap st ++ [OExpression (Some "=") [ORef a; o]]) (_varidx st),
               Ok (VExpr (length (heap st))))) as ->.
    { destruct y; try done; try (by destruct (Hy a0)); simpl in Ho;
        injection Ho as <-; reflexivity. }
    unfold bind at 1. rewrite IH. simpl.
    by rewrite length_app, Nat.add_1_r, <-app_assoc.
Qed.

(** X13.  For a container of any shape whose elements are expressions, and
    any integer [z], a Python [int] or a numpy integer, [container == z]
    returns a [Variables] container of the same shape; its elements are new
    nodes, allocated in row-major order, the [i]-th being the node "=" of
    the [i]-th element and [z].  In the nodes [z] is a numpy integer, also
    when it was given as a Python [int], unless that [int] is outside the
    64-bit integers: it is then kept as it is.  Nothing else changes. *)
Theorem Variables_eq_scalar (host_eq : value → value → M value)
    (ndarray__array_ufunc__ :
       ufunc → string → list value → option (list value) → M value)
    (ndarray__array_ufunc__tuple :
       ufunc → string → list value → option (list value) → M (option (list value)))
    (shape : list nat) (l : list addr) (z : Z) (y : value) (st : state) :
  length l = size shape → y = VInt z ∨ y = VNpInt z →
  let o := match y with
           | VInt _ => if is_np_integer z then ONpInt z else OInt z
           | _ => ONpInt z
           end in
  Variables.array_eq host_eq ndarray__array_ufunc__ ndarray__array_ufunc__tuple
    (VArray true shape (VExpr <$> l)) y st
  = (mkState (heap st ++ ((λ a, OExpression (Some "=") [ORef a; o]) <$> l))
       (_varidx st),
     Ok (One (VArray true shape (VExpr <$> seq (length (heap st)) (length l))))).
Proof.
  intros Hlen Hy o.
  unfold Variables.array_eq, Variables.__array_ufunc__, try_except,
    Variables._call_ufunc.
  change (ufunc_eqb np_equal np_equal && String.eqb "__call__" "__call__") with true.
  change (nout np_equal =? 1) with true.
  cbn match.
  assert ((λ i, if Variables.is_Variables_instance i
                then Variables.view false i else i)
            <$> [VArray true shape (VExpr <$> l); y]
          = [VArray false shape (VExpr <$> l); y]) as ->.
  { by destruct Hy as [-> | ->]. }
  unfold bind at 1. unfold bind at 1. unfold lift.
  rewrite (broadcast_scalar false shape (VExpr <$> l) y (operand_value o));
    [|destruct Hy as [-> | ->]; subst o; simpl; by destruct (is_np_integer z)
     |by rewrite length_fmap].
  cbn [fst snd]. unfold bind at 1.
  rewrite <-list_fmap_compose.
  change ((λ a, (a, operand_value o)) ∘ VExpr)
    with (λ a : nat, (VExpr a, operand_value o)).
  rewrite (eq_items_operand host_eq (operand_value o) o l);
    [reflexivity| |];
    destruct Hy as [-> | ->]; subst o; simpl; by destruct (is_np_integer z).
Qed.

(** [v == 2**70] on a container of three elements: the nodes hold the
    Python [int]. *)
Lemma Variables_eq_scalar_witness :
  let host_eq (a b : value) : M value := raise (TypeError "host") in
  let dispatch (u : ufunc) (m : string) (i : list value) (o : option (list value))
    : M value := ret VNotImplemented in
  let dispatch_tuple (u : ufunc) (m : string) (i : list value) (o : option (list value))
    : M (option (list value)) := ret None in
  let d := DomainRange.__init__ None None in
  let st := mkState [OVariable "a" d; OVariable "b" d; OVariable "c" d] 0 in
  Variables.array_eq host_eq dispatch dispatch_tuple
    (VArray true [3; 1] (VExpr <$> [0; 1; 2])) (VInt (2 ^ 70)) st
  = (mkState (heap st ++ ((λ a, OExpression (Some "=") [ORef a; OInt (2 ^ 70)])
                            <$> [0; 1; 2]))
       (_varidx st),
     Ok (One (VArray true [3; 1] (VExpr <$> seq (length (heap st)) (length [0; 1; 2]))))).
Proof.
  intros host_eq dispatch dispatch_tuple d st.
  apply (Variables_eq_scalar host_eq dispatch dispatch_tuple [3; 1] [0; 1; 2]
           (2 ^ 70) (VInt (2 ^ 70)) st).
  - reflexivity.
  - left. reflexivity.
Defined.

Lemma eq_node_prefix (h0 h : list object) (ab : addr * addr) :
  h0 `prefix_of` h → ab.1 < length h0 → ab.2 < length h0 →
  eq_node h ab = eq_node h0 ab.
Proof.
  intros [k ->] H1 H2. unfold eq_node, is_plain_Expression, is_Variable.
  by rewrite !lookup_app_l by done.
Qed.

Lemma eq_pairs (host_eq : value → value → M value) (h0 : list object)
    (l : list (addr * addr)) (st : state) :
  h0 `prefix_of` heap st →
  Forall (λ ab, ab.1 < length h0 ∧ ab.2 < length h0) l →
  mapM_ (λ ab, py_eq host_eq ab.1 ab.2) ((λ ab, (VExpr ab.1, VExpr ab.2)) <$> l) st
  = (mkState (heap st ++ (eq_node h0 <$> l)) (_varidx st),
     Ok (VExpr <$> seq (length (heap st)) (length l))).
Proof.
  intros Hpre Hl. revert st Hpre.
  induction Hl as [|[a b] l [Ha Hb] _ IH]; intros st Hpre; simpl.
  - unfold ret. rewrite app_nil_r. by destruct st.
  - unfold bind at 1. simpl. unfold fmapM, bind at 1.
    assert (infix_eq a b st
            = (mkState (heap st ++ [eq_node h0 (a, b)]) (_varidx st),
               Ok (length (heap st)))) as ->.
    { rewrite <-(eq_node_prefix h0 (heap st) (a, b)) by done.
      unfold infix_eq, eq_node. simpl.
      by destruct (is_plain_Expression (heap st) a && is_Variable (heap st) b). }
    unfold ret at 1. unfold bind at 1. rewrite IH by (by apply prefix_app_r).
    simpl. by rewrite length_app, Nat.add_1_r, <-app_assoc.
Qed.

Lemma zip_fmap_VExpr (l1 l2 : list addr) :
  zip (VExpr <$> l1) (VExpr <$> l2) = (λ ab, (VExpr ab.1, VExpr ab.2)) <$> zip l1 l2.
Proof.
  revert l2. induction l1 as [|a l1 IH]; intros [|b l2]; simpl; [done..|].
  by rewrite IH.
Qed.

(** X14.  For two containers of one shape whose elements are expressions
    that exist, [v == w] returns a [Variables] container of that shape whose
    [i]-th element is a new node "=" of the [i]-th elements of [v] and [w]:
    the element of [v] comes first, except where it is a plain [Expression]
    and the element of [w] a [Variable], where the reflected comparison puts
    the element of [w] first. *)
Theorem Variables_eq_container (host_eq : value → value → M value)
    (ndarray__array_ufunc__ :
       ufunc → string → list value → option (list value) → M value)
    (ndarray__array_ufunc__tuple :
       ufunc → string → list value → option (list value) → M (option (list value)))
    (b : bool) (shape : list nat) (l1 l2 : list addr) (st : state) :
  length l1 = size shape → length l2 = size shape →
  Forall (λ a, a < length (heap st)) l1 →
  Forall (λ a, a < length (heap st)) l2 →
  Variables.array_eq host_eq ndarray__array_ufunc__ ndarray__array_ufunc__tuple
    (VArray true shape (VExpr <$> l1)) (VArray b shape (VExpr <$> l2)) st
  = (mkState (heap st ++ (eq_node (heap st) <$> zip l1 l2)) (_varidx st),
     Ok (One (VArray true shape (VExpr <$> seq (length (heap st)) (size shape))))).
Proof.
  intros Hlen1 Hlen2 Hl1 Hl2.
  unfold Variables.array_eq, Variables.__array_ufunc__, try_except,
    Variables._call_ufunc.
  change (ufunc_eqb np_equal np_equal && String.eqb "__call__" "__call__") with true.
  change (nout np_equal =? 1) with true.
  cbn match.
  assert ((λ i, if Variables.is_Variables_instance i
                then Variables.view false i else i)
            <$> [VArray true shape (VExpr <$> l1); VArray b shape (VExpr <$> l2)]
          = [VArray false shape (VExpr <$> l1); VArray false shape (VExpr <$> l2)])
    as ->.
  { by destruct b. }
  unfold bind at 1. unfold bind at 1. unfold lift.
  rewrite broadcast_same_shape by (by rewrite length_fmap).
  cbn [fst snd]. unfold bind at 1.
  rewrite zip_fmap_VExpr, (eq_pairs host_eq (heap st)); [| done |].
  - simpl. rewrite length_zip_with, Hlen1, Hlen2, Nat.min_id. reflexivity.
  - apply Forall_forall. intros [a c] Hin.
    apply elem_of_zip_l in Hin as Ha. apply elem_of_zip_r in Hin as Hc.
    rewrite Forall_forall in Hl1, Hl2. simpl in *. auto.
Qed.

(** [[x + 1, y] == [z, z]] for three variables: the first comparison is
    reflected. *)
Lemma Variables_eq_container_witness :
  let host_eq (a b : value) : M value := raise (TypeError "host") in
  let dispatch (u : ufunc) (m : string) (i : list value) (o : option (list value))
    : M value := ret VNotImplemented in
  let dispatch_tuple (u : ufunc) (m : string) (i : list value) (o : option (list value))
    : M (option (list value)) := ret None in
  let d := DomainRange.__init__ None None in
  let st := mkState [OVariable "x" d; OVariable "y" d; OVariable "z" d;
                     OExpression (Some "+") [ORef 0; OInt 1]] 0 in
  Variables.array_eq host_eq dispatch dispatch_tuple
    (VArray true [2] (VExpr <$> [3; 1])) (VArray true [2] (VExpr <$> [2; 2])) st
  = (mkState (heap st ++ (eq_node (heap st) <$> zip [3; 1] [2; 2])) (_varidx st),
     Ok (One (VArray true [2] (VExpr <$> seq (length (heap st)) (size [2]))))).
Proof.
  intros host_eq dispatch dispatch_tuple d st.
  apply (Variables_eq_container host_eq dispatch dispatch_tuple true [2] [3; 1] [2; 2] st);
    try reflexivity; repeat constructor.
Defined.

Example Variables_eq_container_nodes :
  let d := DomainRange.__init__ None None in
  let h := [OVariable "x" d; OVariable "y" d; OVariable "z" d;
            OExpression (Some "+") [ORef 0; OInt 1]] in
  eq_node h <$> zip [3; 1] [2; 2]
  = [OExpression (Some "=") [ORef 2; ORef 3]; OExpression (Some "=") [ORef 1; ORef 2]].
Proof. reflexivity. Qed.

(** ** The dispatch override *)

Section Dispatch.

Variable host_eq : value → value → M value.
Variable ndarray__array_ufunc__ :
  ufunc → string → list value → option (list value) → M value.
Variable ndarray__array_ufunc__tuple :
  ufunc → string → list value → option (list value) → M (option (list value)).

Local Abbreviation array_ufunc :=
  (Variables.__array_ufunc__ host_eq ndarray__array_ufunc__
     ndarray__array_ufunc__tuple).


(** X16.  An elementwise equality with an [out] argument never produces
    its result: [_call_ufunc] takes the tuple of outputs for the result
    array, the assignment to its [flat] fails, and [__array_ufunc__] returns
    [None], for all inputs and outputs. *)
Theorem array_ufunc_equal_out (inputs outputs : list value) (st : state) :
  ∃ st', array_ufunc np_equal "__call__" inputs (Some outputs) st
         = (st', Ok (One VNone)).
Proof.
  unfold Variables.__array_ufunc__, try_except, Variables._call_ufunc.
  change (ufunc_eqb np_equal np_equal && String.eqb "__call__" "__call__") with true.
  change (nout np_equal =? 1) with true.
  cbn match.
  destruct inputs as [|x [|y [|z inputs]]]; simpl; try by eexists.
  unfold bind, lift, raise, ret.
  match goal with |- context [broadcast ?a ?b] =>
    destruct (broadcast a b) as [bc|e] end; [|by eexists].
  match goal with |- context [mapM_ ?f ?l st] =>
    destruct (mapM_ f l st) as [st1 [items|e]] end; by eexists.
Qed.




End Dispatch.


(** ** More of the lowering *)

Section MoreLowering.

Variable lpobj : Type.
Variable LpVariable : string → option Z → Z → lpobj.
Variable lp_add : lowered lpobj → lowered lpobj → result (lowered lpobj).
Variable lp_eq : lowered lpobj → lowered lpobj → result (lowered lpobj).

Local Abbreviation add_lpvar := (SolverPulp._add_lpvar lpobj LpVariable).
Local Abbreviation convert_fuel :=
  (SolverPulp.convert_fuel lpobj LpVariable lp_add lp_eq).
Local Abbreviation convert_constraint :=
  (SolverPulp._convert_constraint lpobj LpVariable lp_add lp_eq).
Local Abbreviation solve_lowering :=
  (SolverPulp.solve_lowering lpobj LpVariable lp_add lp_eq).

Lemma mapL_memo {A B} (P : gmap string lpobj → gmap string lpobj → Prop)
    (f : A → SolverPulp.L lpobj B) (l : list A)
    (lps lps' : gmap string lpobj) (r : result (list B)) :
  memo_step P →
  Forall (λ x, ∀ lps lps' r, f x lps = Some (lps', r) → P lps lps') l →
  SolverPulp.mapL lpobj f l lps = Some (lps', r) → P lps lps'.
Proof.
  intros [Hrefl Htrans] Hl. revert lps lps' r.
  induction Hl as [|x l Hx _ IH]; intros lps lps' r; simpl.
  - intros [= <- _]. apply Hrefl.
  - unfold SolverPulp.bindL at 1.
    destruct (f x lps) as [[lps1 [y|e]]|] eqn:Hfx; [| |done].
    + unfold SolverPulp.bindL at 1.
      destruct (SolverPulp.mapL lpobj f l lps1) as [[lps2 [ys|e]]|] eqn:Hrest;
        [| |done]; intros [= <- _]; eapply Htrans; eauto.
    + intros [= <- _]. eauto.
Qed.

Lemma memo_grows_step (h : list object) : memo_step (memo_grows LpVariable h).
Proof.
  split.
  - intros lps. split; [done|]. intros n lv ?. by left.
  - intros l1 l2 l3 [Hs12 H12] [Hs23 H23]. split; [by etrans|].
    intros n lv H3. destruct (H23 n lv H3) as [H2|?]; [|by right].
    apply (H12 n lv H2).
Qed.

Lemma add_lpvar_memo_grows (h : list object) (v : addr)
    (lps lps' : gmap string lpobj) (r : result lpobj) :
  add_lpvar h v lps = Some (lps', r) → memo_grows LpVariable h lps lps'.
Proof.
  unfold SolverPulp._add_lpvar.
  destruct (h !! v) as [[op values|name [low [up|]]]|] eqn:Hv; simpl;
    [by intros [= <- _]; apply memo_grows_step| | |done].
  - destruct (lps !! name) as [lv|] eqn:Hn; intros [= <- _];
      [by apply memo_grows_step|].
    split; [by apply insert_subseteq|]. intros n lv.
    destruct (decide (name = n)) as [->|Hne].
    + rewrite lookup_insert_eq. intros [= <-]. right. by exists v, low, up.
    + rewrite lookup_insert_ne by done. by left.
  - destruct (lps !! name); intros [= <- _]; apply memo_grows_step.
Qed.

Lemma convert_fuel_memo_grows (fuel : nat) (h : list object) (c : operand)
    (lps lps' : gmap string lpobj) (r : result (lowered lpobj)) :
  convert_fuel fuel h c lps = Some (lps', r) → memo_grows LpVariable h lps lps'.
Proof.
  revert c lps lps' r. induction fuel as [|fuel IH]; intros c lps lps' r.
  - destruct c; simpl; try done; intros [= <- _]; apply memo_grows_step.
  - destruct c as [| | |a]; simpl; try (intros [= <- _]; apply memo_grows_step).
    destruct (h !! a) as [[op values|name dom]|]; [| |done].
    + unfold SolverPulp.bindL at 1.
      destruct (SolverPulp.mapL lpobj (convert_fuel fuel h) values lps)
        as [[lps1 [lpexpr|e]]|] eqn:Hvalues; [| |done].
      * intros Hrest.
        assert (lps' = lps1) as ->.
        { revert Hrest. unfold SolverPulp.bindL, SolverPulp.index,
            SolverPulp.retL, SolverPulp.raiseL.
          destruct (bool_decide (op = Some "+")),
            (bool_decide (op = Some "=")), (lpexpr !! 0), (lpexpr !! 1);
            by intros [= <- _]. }
        eapply (mapL_memo (memo_grows LpVariable h)); [apply memo_grows_step| |done].
        apply Forall_forall. intros x _ ???. apply IH.
      * intros [= <- _].
        eapply (mapL_memo (memo_grows LpVariable h)); [apply memo_grows_step| |done].
        apply Forall_forall. intros x _ ???. apply IH.
    + unfold SolverPulp.bindL.
      destruct (add_lpvar h a lps) as [[lps1 [lv|e]]|] eqn:Hadd; [| |done];
        intros [= <- _]; by eapply add_lpvar_memo_grows.
Qed.

(** X18.  Lowering never forgets or replaces a backend variable: whatever
    the constraint and whether the lowering returns or raises, every entry
    of the memo [_lpvars] is still there afterwards, and an entry that is
    new was made from a [Variable] of that name, with the bounds [min] and
    [max - 1] of its domain. *)
Theorem convert_constraint_memo (h : list object) (c : operand)
    (lps lps' : gmap string lpobj) (r : result (lowered lpobj)) :
  convert_constraint h c lps = Some (lps', r) →
  lps ⊆ lps'
  ∧ ∀ n lv, lps' !! n = Some lv →
      lps !! n = Some lv
      ∨ ∃ v low up, h !! v = Some (OVariable n (DomainRange.__init__ low (Some up)))
                    ∧ lv = LpVariable n low (up - 1).
Proof. apply convert_fuel_memo_grows. Qed.

End MoreLowering.

(** [b] is memoized already, [a] is created, and the unbounded [c] stops
    the lowering of [(a + b) + c]. *)
Lemma convert_constraint_memo_witness :
  let d := DomainRange.__init__ (Some 0%Z) (Some 2%Z) in
  let h := [OVariable "a" d; OVariable "b" d;
            OVariable "c" (DomainRange.__init__ None None);
            OExpression (Some "+") [ORef 0; ORef 1];
            OExpression (Some "+") [ORef 3; ORef 2]] in
  let lps : gmap string sym := {[ "b" := SymVariable "b" None 9 ]} in
  let lps' : gmap string sym := <["a" := SymVariable "a" (Some 0%Z) 1]> lps in
  lps ⊆ lps'
  ∧ ∀ n lv, lps' !! n = Some lv →
      lps !! n = Some lv
      ∨ ∃ v low up, h !! v = Some (OVariable n (DomainRange.__init__ low (Some up)))
                    ∧ lv = SymVariable n low (up - 1).
Proof.
  intros d h lps lps'.
  apply (convert_constraint_memo sym SymVariable sym_add sym_eq h (ORef 4) lps lps'
           (Raise (TypeError sub_None_msg))).
  vm_compute. reflexivity.
Defined.

(** ** [SolverPulp.solve], before the backend is called *)

Lemma dict_values_fmap {V} (d : dict V) : dict_values d = d.*2.
Proof. unfold dict_values. induction d as [|[k v] d IH]; simpl; by f_equal. Qed.

Lemma dict_get_elem_of {V} (k : string) (v : V) (d : dict V) :
  NoDup d.*1 → (k, v) ∈ d → dict_get k d = Some v.
Proof.
  induction d as [|[k' v'] d IH]; simpl.
  - intros _ Hin. by apply elem_of_nil in Hin.
  - rewrite NoDup_cons. intros [Hk' Hnd] Hin.
    apply elem_of_cons in Hin as [[= <- <-]|Hin].
    + by rewrite String.eqb_refl.
    + destruct (String.eqb_spec k k') as [->|_]; [|by apply IH].
      destruct Hk'. apply list_elem_of_fmap. by exists (k', v).
Qed.

Lemma dict_get_Some_key {V} (k : string) (v : V) (d : dict V) :
  dict_get k d = Some v → k ∈ d.*1.
Proof.
  intros Hget. destruct (decide (k ∈ d.*1)) as [|Hnot]; [done|].
  apply dict_get_None in Hnot. congruence.
Qed.

Section Solve.

Variable lpobj : Type.
Variable LpVariable : string → option Z → Z → lpobj.
Variable lp_add : lowered lpobj → lowered lpobj → result (lowered lpobj).
Variable lp_eq : lowered lpobj → lowered lpobj → result (lowered lpobj).

Local Abbreviation add_lpvar := (SolverPulp._add_lpvar lpobj LpVariable).
Local Abbreviation convert_fuel :=
  (SolverPulp.convert_fuel lpobj LpVariable lp_add lp_eq).
Local Abbreviation convert_constraint :=
  (SolverPulp._convert_constraint lpobj LpVariable lp_add lp_eq).
Local Abbreviation solve_lowering :=
  (SolverPulp.solve_lowering lpobj LpVariable lp_add lp_eq).

Lemma mapL_fixed {A B} (f : A → SolverPulp.L lpobj B) (l : list A)
    (lps : gmap string lpobj) :
  Forall (λ x, ∃ r, f x lps = Some (lps, r)) l →
  ∃ r, SolverPulp.mapL lpobj f l lps = Some (lps, r)
       ∧ ∀ ys, r = Ok ys → length ys = length l.
Proof.
  induction 1 as [|x l [r Hx] _ (rs & Hl & Hlen)]; simpl.
  - eexists. split; [done|]. by intros ys [= <-].
  - unfold SolverPulp.bindL. rewrite Hx. destruct r as [y|e].
    + rewrite Hl. destruct rs as [ys|e]; eexists; (split; [done|]).
      * intros ? [= <-]. simpl. f_equal. by apply Hlen.
      * done.
    + eexists. by split.
Qed.

(** Lowering an expression whose variables are all memoized leaves the
    memo as it is, and returns or raises with the fuel that [variables]
    needed. *)
Lemma convert_fuel_memoized (fuel : nat) (h : list object) (a : addr)
    (lps : gmap string lpobj) (vs : list addr) :
  Expression.variables_fuel fuel h a = Some vs →
  Forall (memoized h lps) vs →
  ∃ r, convert_fuel fuel h (ORef a) lps = Some (lps, r).
Proof.
  revert a vs. induction fuel as [|fuel IH]; intros a vs; [done|]. simpl.
  destruct (h !! a) as [[op values|name dom]|] eqn:Ha; [| |done].
  - destruct (mapM (Expression.variables_fuel fuel h) _) as [ls|] eqn:Hls; [|done].
    intros [= <-] Hvs. apply mapM_Some in Hls.
    rewrite Forall_concat in Hvs.
    destruct (mapL_fixed (convert_fuel fuel h) values lps) as (r & Hr & _).
    { apply Forall_forall. intros [b|z|z|b] Hin;
        try (destruct fuel; by eexists).
      apply elem_of_expression_values, list_elem_of_lookup in Hin as [i Hi].
      destruct (Forall2_lookup_l _ _ _ _ _ Hls Hi) as (lb & Hlb & Hb).
      apply (IH b lb Hb). rewrite Forall_forall in Hvs.
      by eapply Hvs, list_elem_of_lookup_2. }
    unfold SolverPulp.bindL at 1. rewrite Hr. destruct r as [lpexpr|e]; [|by eexists].
    unfold SolverPulp.bindL, SolverPulp.index, SolverPulp.retL, SolverPulp.raiseL.
    destruct (bool_decide (op = Some "+")), (bool_decide (op = Some "=")),
      (lpexpr !! 0), (lpexpr !! 1); by eexists.
  - intros [= <-] Hvs. apply Forall_cons_1 in Hvs as [(name' & dom' & Ha' & [lv Hlv]) _].
    rewrite Ha in Ha'. injection Ha' as <- <-.
    unfold SolverPulp.bindL, SolverPulp._add_lpvar. rewrite Ha, Hlv. by eexists.
Qed.

(** The first loop of [solve] over the entries of the map. *)
Lemma add_lpvars_entries (h : list object) (entries : dict addr)
    (lps : gmap string lpobj) :
  forallb (entry_ok h) entries = true → NoDup entries.*1 →
  (∀ n, n ∈ entries.*1 → lps !! n = None) →
  ∃ lps' r,
    SolverPulp.mapL lpobj (add_lpvar h) entries.*2 lps = Some (lps', r)
    ∧ (∀ n lv, lps' !! n = Some lv →
         lps !! n = Some lv
         ∨ ∃ v low up, (n, v) ∈ entries
             ∧ h !! v = Some (OVariable n (DomainRange.__init__ low (Some up)))
             ∧ lv = LpVariable n low (up - 1))
    ∧ match r with
      | Ok lvs => length lvs = length entries
                  ∧ ∀ n, n ∈ entries.*1 → is_Some (lps' !! n)
      | Raise e => e = TypeError sub_None_msg
      end.
Proof.
  revert lps. induction entries as [|[n0 v0] entries IH]; intros lps Hok Hnd Hfresh.
  - exists lps, (Ok []). split_and!; [done|by left|done|].
    intros n Hn. by apply elem_of_nil in Hn.
  - simpl in Hok. apply andb_prop in Hok as [Hentry Hok].
    apply NoDup_cons in Hnd as [Hn0 Hnd].
    unfold entry_ok in Hentry. simpl in Hentry.
    destruct (h !! v0) as [[|name [low [up|]]]|] eqn:Hv0; try done;
      apply String.eqb_eq in Hentry as <-.
    + set (lv0 := LpVariable n0 low (up - 1)).
      destruct (IH (<[n0 := lv0]> lps) Hok Hnd) as (lps' & r & Hrest & Hfrom & Hr).
      { intros n Hn. rewrite lookup_insert_ne; [apply Hfresh; by right|].
        by intros <-. }
      assert (<[n0 := lv0]> lps ⊆ lps') as Hsub.
      { eapply (mapL_memo lpobj (memo_grows LpVariable h)), Hrest;
          [apply memo_grows_step|].
        apply Forall_forall. intros ? _ ???. by apply add_lpvar_memo_grows. }
      exists lps', (match r with Ok lvs => Ok (lv0 :: lvs) | Raise e => Raise e end).
      split_and!.
      * cbn [fmap list_fmap SolverPulp.mapL snd]. unfold SolverPulp.bindL at 1.
        unfold SolverPulp._add_lpvar at 1. rewrite Hv0. cbn [DomainRange.max DomainRange.min].
        rewrite (Hfresh n0) by left. fold lv0.
        unfold SolverPulp.bindL at 1. rewrite Hrest. by destruct r.
      * intros n lv Hn. destruct (Hfrom n lv Hn) as [Hin|(v & l & u & Hin & ?)].
        -- destruct (decide (n0 = n)) as [<-|Hne].
           ++ rewrite lookup_insert_eq in Hin. injection Hin as <-.
              right. exists v0, low, up. split; [left|done].
           ++ rewrite lookup_insert_ne in Hin by done. by left.
        -- right. exists v, l, u. split; [by right|done].
      * destruct r as [lvs|e]; [|done]. destruct Hr as [Hlen Hall].
        split; [simpl; by f_equal|]. intros n Hn.
        cbn [fmap list_fmap fst] in Hn. apply elem_of_cons in Hn as [->|Hn].
        -- exists lv0. eapply lookup_weaken; [|done]. apply lookup_insert_eq.
        -- by apply Hall.
    + exists lps, (Raise (TypeError sub_None_msg)). split_and!; [|by left|done].
      cbn [fmap list_fmap SolverPulp.mapL snd]. unfold SolverPulp.bindL at 1.
      unfold SolverPulp._add_lpvar at 1. rewrite Hv0. cbn [DomainRange.max].
      by rewrite (Hfresh n0) by left.
Qed.

(** The two loops of [solve] on a solver that keeps its invariant. *)
Lemma solve_lowering_cases (h : list object) (s : Solver.t) :
  solver_ok h s = true →
  ∃ lps r,
    solve_lowering h s None = Some (lps, r)
    ∧ (∀ n lv, lps !! n = Some lv →
         ∃ v low up, dict_get n (Solver._variables s) = Some v
           ∧ h !! v = Some (OVariable n (DomainRange.__init__ low (Some up)))
           ∧ lv = LpVariable n low (up - 1))
    ∧ (r = Raise (TypeError sub_None_msg)
       ∨ (∀ n, n ∈ (Solver._variables s).*1 → is_Some (lps !! n))
         ∧ ∀ xs, r = Ok xs → length xs = length (Solver._conststore s)).
Proof.
  unfold solver_ok. intros Hok.
  apply andb_prop in Hok as [Hok Hcov]. apply andb_prop in Hok as [Hentries Hnd].
  apply bool_decide_eq_true in Hnd.
  destruct (add_lpvars_entries h (Solver._variables s) ∅ Hentries Hnd)
    as (lps1 & r1 & Hone & Hfrom & Hr1); [intros; apply lookup_empty|].
  assert (∀ n lv, lps1 !! n = Some lv →
            ∃ v low up, dict_get n (Solver._variables s) = Some v
              ∧ h !! v = Some (OVariable n (DomainRange.__init__ low (Some up)))
              ∧ lv = LpVariable n low (up - 1)) as Hfrom'.
  { intros n lv Hn. destruct (Hfrom n lv Hn) as [Hin|(v & low & up & Hin & ? & ?)].
    - by rewrite lookup_empty in Hin.
    - exists v, low, up. split; [by apply dict_get_elem_of|done]. }
  unfold SolverPulp.solve_lowering. cbn [default].
  rewrite dict_values_fmap. unfold SolverPulp.bindL at 1. rewrite Hone.
  destruct r1 as [lvs|e].
  - destruct Hr1 as [_ Hall].
    destruct (mapL_fixed (λ c, convert_constraint h (ORef c))
                (Solver._conststore s) lps1) as (r & Hr & Hlen).
    { apply Forall_forall. intros c Hc. rewrite forallb_forall in Hcov.
      specialize (Hcov c). rewrite <-list_elem_of_In in Hcov. specialize (Hcov Hc).
      destruct (Expression.variables h c) as [vs|] eqn:Hvs; [|done].
      apply (convert_fuel_memoized _ h c lps1 vs Hvs).
      apply Forall_forall. intros v Hv. rewrite forallb_forall in Hcov.
      specialize (Hcov v). rewrite <-list_elem_of_In in Hcov. specialize (Hcov Hv).
      unfold registered in Hcov.
      destruct (h !! v) as [[|name dom]|] eqn:Hhv; try done.
      destruct (dict_get name (Solver._variables s)) as [v'|] eqn:Hget; [|done].
      exists name, dom. split; [done|]. by eapply Hall, dict_get_Some_key. }
    exists lps1, r. split_and!; [done|done|]. right. by split.
  - subst e. exists lps1, (Raise (TypeError sub_None_msg)). split_and!; [done|done|by left].
Qed.

(** X19.  [solve] on a solver that keeps its invariant needs every
    registered variable to have an upper bound: with one whose [max] is
    unset (the default domain of [Variable()]), it raises the [TypeError]
    of [None - 1], whatever the constraints are. *)
Theorem solve_unbounded (h : list object) (s : Solver.t) (name : string)
    (v : addr) (low : option Z) :
  solver_ok h s = true →
  v ∈ dict_values (Solver._variables s) →
  h !! v = Some (OVariable name (DomainRange.__init__ low None)) →
  ∃ lps, solve_lowering h s None = Some (lps, Raise (TypeError sub_None_msg)).
Proof.
  intros Hok Hv Hhv.
  destruct (solve_lowering_cases h s Hok) as (lps & r & Hsolve & Hfrom & [->|[Hall _]]);
    [by exists lps|exfalso].
  unfold solver_ok in Hok.
  apply andb_prop in Hok as [Hok _]. apply andb_prop in Hok as [Hentries Hnd].
  apply bool_decide_eq_true in Hnd.
  rewrite dict_values_fmap in Hv. apply list_elem_of_fmap in Hv as ([n v'] & -> & Hin).
  simpl in Hhv. rewrite forallb_forall in Hentries.
  specialize (Hentries (n, v')). rewrite <-list_elem_of_In in Hentries.
  specialize (Hentries Hin). unfold entry_ok in Hentries. simpl in Hentries.
  rewrite Hhv in Hentries. apply String.eqb_eq in Hentries as ->.
  destruct (Hall name) as [lv Hlv]; [apply list_elem_of_fmap; by exists (name, v')|].
  destruct (Hfrom name lv Hlv) as (v'' & low' & up & Hget & Hbounded & _).
  rewrite (dict_get_elem_of name v' _ Hnd Hin) in Hget. injection Hget as <-.
  congruence.
Qed.

(** X20.  [solve] on a solver that keeps its invariant returns or raises,
    and its memo [_lpvars] then holds backend variables of registered
    variables only, each made from the variable registered under its name,
    with the bounds [min] and [max - 1]; when the lowering returns, it has
    one lowered constraint for each stored one and a backend variable for
    every registered name: lowering the constraints created none. *)
Theorem solve_lowering_memo (h : list object) (s : Solver.t) :
  solver_ok h s = true →
  ∃ lps r,
    solve_lowering h s None = Some (lps, r)
    ∧ (∀ n lv, lps !! n = Some lv →
         ∃ v low up, dict_get n (Solver._variables s) = Some v
           ∧ h !! v = Some (OVariable n (DomainRange.__init__ low (Some up)))
           ∧ lv = LpVariable n low (up - 1))
    ∧ ∀ xs, r = Ok xs →
        length xs = length (Solver._conststore s)
        ∧ ∀ n, n ∈ (Solver._variables s).*1 → is_Some (lps !! n).
Proof.
  intros Hok.
  destruct (solve_lowering_cases h s Hok) as (lps & r & Hsolve & Hfrom & Hr).
  exists lps, r. split_and!; [done..|]. intros xs ->.
  destruct Hr as [?|[Hall Hlen]]; [done|]. split; [by apply Hlen|done].
Qed.

End Solve.

Lemma solve_unbounded_witness :
  let h := [OVariable "a" (DomainRange.__init__ (Some 0%Z) (Some 2%Z));
            OVariable "b" (DomainRange.__init__ None None);
            OExpression (Some "=") [ORef 0; ORef 1]] in
  ∃ lps, SolverPulp.solve_lowering sym SymVariable sym_add sym_eq h
           (Solver.mk [2] [("a", 0); ("b", 1)]) None
         = Some (lps, Raise (TypeError sub_None_msg)).
Proof.
  intros h.
  apply (solve_unbounded sym SymVariable sym_add sym_eq h
           (Solver.mk [2] [("a", 0); ("b", 1)]) "b" 1 None).
  - vm_compute. reflexivity.
  - vm_compute. apply list_elem_of_lookup. by exists 1.
  - reflexivity.
Defined.

Lemma solve_lowering_memo_witness :
  let d := DomainRange.__init__ (Some 0%Z) (Some 2%Z) in
  let h := [OVariable "a" d; OVariable "b" d;
            OExpression (Some "=") [ORef 0; ORef 1]] in
  let s := Solver.mk [2] [("a", 0); ("b", 1)] in
  ∃ lps r,
    SolverPulp.solve_lowering sym SymVariable sym_add sym_eq h s None = Some (lps, r)
    ∧ (∀ n lv, lps !! n = Some lv →
         ∃ v low up, dict_get n (Solver._variables s) = Some v
           ∧ h !! v = Some (OVariable n (DomainRange.__init__ low (Some up)))
           ∧ lv = SymVariable n low (up - 1))
    ∧ ∀ xs, r = Ok xs →
        length xs = length (Solver._conststore s)
        ∧ ∀ n, n ∈ (Solver._variables s).*1 → is_Some (lps !! n).
Proof.
  intros d h s.
  apply (solve_lowering_memo sym SymVariable sym_add sym_eq h s).
  vm_compute. reflexivity.
Defined.

(** ** [SolutionPulp.variables_dict] *)

Lemma dict_set_keys_NoDup {V} (k : string) (v : V) (d : dict V) :
  NoDup d.*1 → NoDup (dict_set k v d).*1.
Proof.
  destruct (dict_get k d) as [x|] eqn:Hget.
  - intros Hnd. assert ((dict_set k v d).*1 = d.*1) as ->; [|done].
    clear Hnd. revert Hget. induction d as [|[k' v'] d IH]; simpl; [done|].
    destruct (String.eqb_spec k k') as [->|_]; [done|].
    intros Hget. simpl. f_equal. by apply IH.
  - intros Hnd. rewrite (dict_set_absent _ _ _ Hget), fmap_app.
    apply NoDup_app. split_and!; [done| |apply NoDup_singleton].
    intros n Hn ->%list_elem_of_singleton. by apply dict_get_None in Hget.
Qed.

Lemma foldl_dict_set_get {V} (vs : list (SolutionPulp.lpvar V)) (d : dict V)
    (n : string) :
  dict_get n (foldl (λ d v, dict_set (SolutionPulp.name V v)
                              (SolutionPulp.varValue V v) d) d vs)
  = match last (filter (λ v, SolutionPulp.name V v = n) vs) with
    | Some v => Some (SolutionPulp.varValue V v)
    | None => dict_get n d
    end.
Proof.
  revert d. induction vs as [|v vs IH]; intros d; [done|]. simpl.
  rewrite IH, filter_cons. case_decide as Hn.
  - rewrite last_cons. destruct (last _); [done|].
    rewrite <-Hn. apply dict_get_set_eq.
  - destruct (last _); [done|]. by apply dict_get_set_ne.
Qed.

Lemma foldl_dict_set_NoDup {V} (vs : list (SolutionPulp.lpvar V)) (d : dict V) :
  NoDup d.*1 →
  NoDup (foldl (λ d v, dict_set (SolutionPulp.name V v)
                         (SolutionPulp.varValue V v) d) d vs).*1.
Proof.
  revert d. induction vs as [|v vs IH]; intros d Hnd; [done|].
  simpl. by apply IH, dict_set_keys_NoDup.
Qed.

Lemma foldl_dict_set_fresh {V} (vs : list (SolutionPulp.lpvar V)) (d : dict V) :
  NoDup (SolutionPulp.name V <$> vs) →
  Forall (λ v, dict_get (SolutionPulp.name V v) d = None) vs →
  foldl (λ d v, dict_set (SolutionPulp.name V v) (SolutionPulp.varValue V v) d) d vs
  = d ++ ((λ v, (SolutionPulp.name V v, SolutionPulp.varValue V v)) <$> vs).
Proof.
  revert d. induction vs as [|v vs IH]; intros d; simpl.
  - intros _ _. by rewrite app_nil_r.
  - rewrite NoDup_cons. intros [Hv Hnd] [Hget Hrest]%Forall_cons_1.
    rewrite (dict_set_absent _ _ _ Hget), IH, <-app_assoc; [done|done|].
    apply Forall_forall. intros u Hu. rewrite Forall_forall in Hrest.
    rewrite dict_get_app_None by by apply Hrest. simpl.
    destruct (String.eqb_spec (SolutionPulp.name V u) (SolutionPulp.name V v)) as [Heq|]; [|done].
    destruct Hv. rewrite <-Heq. apply list_elem_of_fmap. by exists u.
Qed.

(** X21.  [variables_dict] has one entry for each name, and a name maps to
    the value of the last variable of the solution that carries it; a name
    that no variable carries is not a key. *)
Theorem variables_dict_get {V} (self : SolutionPulp.t V) (n : string) :
  NoDup (SolutionPulp.variables_dict V self).*1
  ∧ dict_get n (SolutionPulp.variables_dict V self)
    = SolutionPulp.varValue V
        <$> last (filter (λ v, SolutionPulp.name V v = n)
                    (SolutionPulp._variables V self)).
Proof.
  unfold SolutionPulp.variables_dict. split.
  - apply foldl_dict_set_NoDup. constructor.
  - rewrite foldl_dict_set_get. by destruct (last _).
Qed.

(** X22.  When the variables of the solution have distinct names, as the
    variables of a backend problem do, [variables_dict] holds the pairs of
    name and value of the variables, in their order. *)
Theorem variables_dict_distinct {V} (self : SolutionPulp.t V) :
  NoDup (SolutionPulp.name V <$> SolutionPulp._variables V self) →
  SolutionPulp.variables_dict V self
  = (λ v, (SolutionPulp.name V v, SolutionPulp.varValue V v))
      <$> SolutionPulp._variables V self.
Proof.
  intros Hnd. unfold SolutionPulp.variables_dict.
  rewrite foldl_dict_set_fresh; [done..|]. by apply Forall_forall.
Qed.

Lemma variables_dict_distinct_witness :
  SolutionPulp.variables_dict (option Z)
    (SolutionPulp.__init__ _ 1 [SolutionPulp.mk_lpvar _ "b" (Some 2%Z);
                                SolutionPulp.mk_lpvar _ "a" None])
  = [("b", Some 2%Z); ("a", None)].
Proof.
  apply (variables_dict_distinct
           (SolutionPulp.__init__ _ 1 [SolutionPulp.mk_lpvar _ "b" (Some 2%Z);
                                       SolutionPulp.mk_lpvar _ "a" None])).
  simpl. apply (bool_decide_unpack _). vm_compute. exact I.
Defined.

(** ** [main] *)

Lemma main_constraint_spec (st : state) :
  let n := length (heap st) in
  let k := _varidx st in
  let d := DomainRange.__init__ None None in
  main_constraint st
  = (mkState (heap st ++ [OVariable ("var_" +:+ pretty k) d;
                          OVariable ("var_" +:+ pretty (S k)) d;
                          OVariable ("var_" +:+ pretty (S (S k))) d;
                          OExpression (Some "+") [ORef n; ORef (n + 1)];
                          OExpression (Some "=") [ORef (n + 2); ORef (n + 3)]])
       (S (S (S k))), Ok (n + 4)).
Proof.
  destruct st as [h0 k]. intros n k' d. subst n k'. cbn [heap _varidx].
  unfold main_constraint, bind.
  rewrite !Variable_init_auto. cbn [Variable_.convert_domain heap _varidx].
  rewrite !Variable_init_auto. cbn [Variable_.convert_domain heap _varidx].
  rewrite !Variable_init_auto. cbn [Variable_.convert_domain heap _varidx].
  rewrite <-!app_assoc, !length_app. cbn [length app Nat.add].
  unfold infix_add, Expression.__add__, Expression.__init__, bind, lift, alloc.
  cbn [Expression.check_values as_operand heap _varidx].
  rewrite <-!app_assoc, !length_app. cbn [length app Nat.add].
  unfold infix_eq, is_plain_Expression, is_Variable. cbn [heap].
  rewrite !lookup_app_add. cbn [lookup list_lookup andb].
  unfold Expression.__eq__, Expression.__init__, bind, lift, alloc.
  cbn [Expression.check_values as_operand heap _varidx].
  rewrite <-!app_assoc, !length_app. cbn [length app Nat.add].
  reflexivity.
Qed.

Lemma var_name_eqb (a b : nat) :
  String.eqb ("var_" +:+ pretty a) ("var_" +:+ pretty b) = bool_decide (a = b).
Proof.
  case_bool_decide as Hab.
  - subst. apply String.eqb_refl.
  - apply String.eqb_neq. intros Heq. apply Hab.
    apply pretty_nat_inj. by simplify_eq/=.
Qed.

Section Main.
Variable lpobj : Type.
Variable LpVariable : string → option Z → Z → lpobj.
Variable lp_add : lowered lpobj → lowered lpobj → result (lowered lpobj).
Variable lp_eq : lowered lpobj → lowered lpobj → result (lowered lpobj).

(** X23.  [main] does not get a solution.  Whatever objects and names
    exist when it is called, its three variables get the next three
    generated names and the default domain, [a + b == c] is stored as the
    node "=" of [c] and [a + b], with [c] registered first, and
    [s.solve()] raises the [TypeError] of [None - 1] when it creates the
    backend variable of [c], before any backend variable exists. *)
Theorem main_raises (st : state) :
  let n := length (heap st) in
  let k := _varidx st in
  let d := DomainRange.__init__ None None in
  main LpVariable lp_add lp_eq st
  = Some (mkState (heap st ++ [OVariable ("var_" +:+ pretty k) d;
                               OVariable ("var_" +:+ pretty (S k)) d;
                               OVariable ("var_" +:+ pretty (S (S k))) d;
                               OExpression (Some "+") [ORef n; ORef (n + 1)];
                               OExpression (Some "=") [ORef (n + 2); ORef (n + 3)]])
            (S (S (S k))),
          Solver.mk [n + 4] [("var_" +:+ pretty (S (S k)), n + 2);
                             ("var_" +:+ pretty k, n);
                             ("var_" +:+ pretty (S k), n + 1)],
          ∅, Raise (TypeError sub_None_msg)).
Proof.
  intros n k d. unfold main. rewrite main_constraint_spec. fold n k. cbn [heap].
  set (h := heap st ++ _).
  assert (∀ i, h !! (n + i) = (drop (length (heap st)) h) !! i) as Hlk.
  { intros i. unfold h, n. rewrite drop_app_length. apply lookup_app_add. }
  pose proof Hlk as Hlk'.
  unfold h in Hlk at 2. rewrite drop_app_length in Hlk.
  assert (h !! n = (drop (length (heap st)) h) !! 0) as Hl0.
  { rewrite <-(Nat.add_0_r n). apply Hlk'. }
  unfold h in Hl0 at 2. rewrite drop_app_length in Hl0. cbn in Hl0.
  pose proof (Hlk 1) as Hl1. pose proof (Hlk 2) as Hl2.
  pose proof (Hlk 3) as Hl3. pose proof (Hlk 4) as Hl4.
  cbn in Hl1, Hl2, Hl3, Hl4. clear Hlk Hlk'.
  assert (Expression.variables h (n + 4) = Some [n + 2; n; n + 1]) as Hvs.
  { apply (variables_fuel_mono 3); [lia|]. simpl.
    rewrite Hl4. simpl. rewrite Hl2, Hl3. simpl. by rewrite Hl0, Hl1. }
  rewrite (add_constraint_Expr h _ _ _ Hvs).
  cbn [Solver.__init__ Solver._variables Solver._conststore Solver.register].
  rewrite Hl2. cbn [dict_get dict_set]. rewrite Hl0. cbn [dict_get dict_set].
  rewrite !var_name_eqb, (bool_decide_eq_false_2 (k = S (S k))) by lia.
  rewrite Hl1. cbn [dict_get dict_set]. rewrite !var_name_eqb.
  rewrite (bool_decide_eq_false_2 (S k = S (S k))),
    (bool_decide_eq_false_2 (S k = k)) by lia.
  cbn [app].
  unfold SolverPulp.solve_lowering. cbn [default Solver._variables dict_values map snd].
  cbn [SolverPulp.mapL]. unfold SolverPulp.bindL at 1 2.
  unfold SolverPulp._add_lpvar at 1. rewrite Hl2, lookup_empty. cbn [DomainRange.max].
  reflexivity.
Qed.
End Main.
